(** * CueAI: the live cue and playback director of [game.js], and the
      id validation of the [/analyze] endpoint.

    The development embeds the parts of [game.js] that decide how the
    story cursor moves, which keyword cue fires, and when music and sound
    effects start, and proves properties of them.

    Conventions of the embedding.
    - A JavaScript string is a [string] of 8-bit code units; case mapping
      and the classes [\s], [\w] are the ASCII ones (a transcript or a
      catalog id outside ASCII is outside the model).
    - [Date.now()] readings, the key [Date.now() + Math.random()] of a new
      entry of [activeSounds], and the outcome of a remote search are inputs
      of the function that reads them.
    - A number that the source keeps in a double (a volume, a mixer level)
      is a rational [Q]; no property below depends on rounding.
    - An [async] method that awaits real I/O is cut at that [await] into the
      part that runs at the call and the part that runs at the resumption.
      A method that awaits [searchAudio] is cut where it evaluates
      [this.searchAudio(...)]; what the search does inside that call,
      before it is suspended itself, is [searchAudio_begin].
    - The status line is kept as text, without its pictographs; the page,
      the console and the volume envelope of ducking are not part of the
      state. *)

From Stdlib Require Import ZArith QArith Qminmax Lia Ascii String List Bool.
From stdpp Require Import gmap strings list.

(** ** Strings as the source uses them *)
Module Js.

Definition code (c : ascii) : nat := nat_of_ascii c.

Definition between (lo hi : nat) (c : ascii) : bool :=
  (lo <=? code c)%nat && (code c <=? hi)%nat.

Definition isUpper : ascii -> bool := between 65 90.
Definition isLower : ascii -> bool := between 97 122.
Definition isDigit : ascii -> bool := between 48 57.

(** [\s] *)
Definition isSpace (c : ascii) : bool :=
  between 9 13 c || (code c =? 32)%nat.

(** [\w] *)
Definition isWordChar (c : ascii) : bool :=
  isUpper c || isLower c || isDigit c || (code c =? 95)%nat.

(** [[a-z0-9']] *)
Definition isNormChar (c : ascii) : bool :=
  isLower c || isDigit c || (code c =? 39)%nat.

Definition lowerChar (c : ascii) : ascii :=
  if isUpper c then ascii_of_nat (code c + 32) else c.

Fixpoint toLowerCase (s : string) : string :=
  match s with
  | EmptyString => EmptyString
  | String c s' => String (lowerChar c) (toLowerCase s')
  end.

Definition upperChar (c : ascii) : ascii :=
  if isLower c then ascii_of_nat (code c - 32) else c.

Fixpoint toUpperCase (s : string) : string :=
  match s with
  | EmptyString => EmptyString
  | String c s' => String (upperChar c) (toUpperCase s')
  end.

Fixpoint filterChars (keep : ascii -> bool) (s : string) : string :=
  match s with
  | EmptyString => EmptyString
  | String c s' =>
      if keep c then String c (filterChars keep s') else filterChars keep s'
  end.

Definition snoc (s : string) (c : ascii) : string :=
  String.append s (String c EmptyString).

Definition isEmpty (s : string) : bool :=
  match s with EmptyString => true | _ => false end.

(** [s.startsWith(p)] *)
Fixpoint startsWith (p s : string) : bool :=
  match p, s with
  | EmptyString, _ => true
  | String a p', String b s' => Ascii.eqb a b && startsWith p' s'
  | String _ _, EmptyString => false
  end.

(** [s.includes(p)] *)
Fixpoint includes (s p : string) : bool :=
  startsWith p s ||
  match s with
  | EmptyString => false
  | String _ s' => includes s' p
  end.

(** [s.replace(/(suf)$/, '')] for one literal suffix: [Some] of what is
    left when [s] ends with [suf]. *)
Fixpoint stripSuffix (suf s : string) : option string :=
  if String.eqb s suf then Some EmptyString
  else match s with
       | EmptyString => None
       | String c s' => option_map (String c) (stripSuffix suf s')
       end.

(** [s.replace(/(a1|a2|...)$/, '')]: the first alternative, in the order
    given, that ends [s] is removed.  (The pattern matches at the leftmost
    position, that is its longest alternative that ends [s]; the callers
    list the alternatives so that both agree.) *)
Fixpoint replaceSuffixes (sufs : list string) (s : string) : string :=
  match sufs with
  | [] => s
  | suf :: rest =>
      match stripSuffix suf s with
      | Some r => r
      | None => replaceSuffixes rest s
      end
  end.

(** [s.replace(/[^keep]+/g, ' ')]: every maximal run of characters
    outside [keep] becomes one space. *)
Fixpoint replaceRuns (keep : ascii -> bool) (inRun : bool) (s : string)
  : string :=
  match s with
  | EmptyString => EmptyString
  | String c s' =>
      if keep c then String c (replaceRuns keep false s')
      else if inRun then replaceRuns keep true s'
           else String " "%char (replaceRuns keep true s')
  end.

(** [s.split(/\s+/)]: the pieces between maximal runs of white space,
    the empty pieces at both ends included. *)
Fixpoint splitSpaces (cur : string) (inSep : bool) (s : string)
  : list string :=
  match s with
  | EmptyString => [cur]
  | String c s' =>
      if isSpace c
      then if inSep then splitSpaces EmptyString true s'
           else cur :: splitSpaces EmptyString true s'
      else splitSpaces (snoc cur c) false s'
  end.

(** [s.replace(/\s+/g, ' ')] *)
Definition collapseSpaces (s : string) : string :=
  replaceRuns (fun c => negb (isSpace c)) false s.

Fixpoint trimStart (s : string) : string :=
  match s with
  | String c s' => if isSpace c then trimStart s' else s
  | EmptyString => EmptyString
  end.

Fixpoint trimEnd (s : string) : string :=
  match s with
  | EmptyString => EmptyString
  | String c s' =>
      match trimEnd s' with
      | EmptyString => if isSpace c then EmptyString else String c EmptyString
      | r => String c r
      end
  end.

Definition trim (s : string) : string := trimEnd (trimStart s).

End Js.

(** ** The Story Aligner *)
Module Story.
Import Js.

Record StoryState := mkStory {
  storyActive : bool;
  storyTokens : list string;
  storyNorm : list string;
  storyIndex : nat;
  recentSpoken : list string
}.

(** What a call asks of the rest of the engine, in the order of the
    calls: [maybeTriggerStorySfx(w)], [updateStoryHighlight()],
    [prefetchStoryWindow()]. *)
Inductive StoryEffect :=
| TriggerStorySfx (w : string)
| UpdateStoryHighlight
| PrefetchStoryWindow.

(** [[\w']]: the characters of a word token of [tokenizeStory]. *)
Definition isTokenChar (c : ascii) : bool :=
  isWordChar c || (code c =? 39)%nat.

Inductive TokMode := InWord | InSpaces | InOther.

Definition flush (cur : string) (rest : list string) : list string :=
  if isEmpty cur then rest else cur :: rest.

(** [text.split(/(\s+|[^\w']+)/g).filter(p => p !== undefined && p !== '')]:
    words and separators alternate; a separator that starts with white
    space is the run of white space ([\s+] is tried first), any other one
    is the run of characters outside [[\w']]. *)
Fixpoint tokenizeFrom (mode : TokMode) (cur : string) (s : string)
  : list string :=
  match s with
  | EmptyString => flush cur []
  | String c s' =>
      match mode with
      | InWord =>
          if isTokenChar c then tokenizeFrom InWord (snoc cur c) s'
          else flush cur
                 (tokenizeFrom (if isSpace c then InSpaces else InOther)
                    (String c EmptyString) s')
      | InSpaces =>
          if isSpace c then tokenizeFrom InSpaces (snoc cur c) s'
          else flush cur
                 (tokenizeFrom (if isTokenChar c then InWord else InOther)
                    (String c EmptyString) s')
      | InOther =>
          if isTokenChar c
          then flush cur (tokenizeFrom InWord (String c EmptyString) s')
          else tokenizeFrom InOther (snoc cur c) s'
      end
  end.

Definition tokenizeStory (text : string) : list string :=
  tokenizeFrom InWord EmptyString text.

(** [String(tok).toLowerCase().replace(/[^a-z0-9']+/g, '')] *)
Definition normalizeWord (tok : string) : string :=
  filterChars isNormChar (toLowerCase tok).

(** The part of [showStoryOverlay] that sets up the aligner. *)
Definition showStoryOverlay (text : string) (st : StoryState) : StoryState :=
  let tokens := tokenizeStory text in
  {| storyActive := true;
     storyTokens := tokens;
     storyNorm := map normalizeWord tokens;
     storyIndex := 0;
     recentSpoken := recentSpoken st |}.

(** [text.toLowerCase().replace(/[^a-z0-9'\s]+/g, ' ').split(/\s+/).filter(Boolean)] *)
Definition spokenWords (text : string) : list string :=
  filter (fun w => isEmpty w = false)
    (splitSpaces EmptyString false
       (replaceRuns (fun c => isNormChar c || isSpace c) false
          (toLowerCase text))).

(** [s.replace(/'(s)?$/, '')] *)
Definition base (s : string) : string := replaceSuffixes ["'s"; "'"] s.

(** [r.replace(/(ing|ed|ly|er|est)$/,'')] then [r.replace(/(es|s)$/,'')].
    No two alternatives of the first pattern can end the same word, and
    in the second the longer one comes first, so trying them in the
    source's order gives the leftmost match of the pattern. *)
Definition strip (s : string) : string :=
  replaceSuffixes ["es"; "s"]
    (replaceSuffixes ["ing"; "ed"; "ly"; "er"; "est"] s).

Definition irregular : list (string * string) :=
  [ ("wolves", "wolf"); ("children", "child"); ("men", "man");
    ("women", "woman"); ("geese", "goose"); ("mice", "mouse");
    ("feet", "foot"); ("teeth", "tooth") ].

Fixpoint assoc {A} (k : string) (l : list (string * A)) : option A :=
  match l with
  | [] => None
  | (k', v) :: l' => if String.eqb k k' then Some v else assoc k l'
  end.

(** [irregular[a] && irregular[a] === b].  A key that the object only
    inherits ([constructor], [toString], ...) yields a function or an
    object, which is never [===] to a string: for strings the test is the
    lookup in the eight own entries. *)
Definition irregularIs (a b : string) : bool :=
  match assoc a irregular with
  | Some v => negb (isEmpty v) && String.eqb v b
  | None => false
  end.

Definition eqLoose (a b : string) : bool :=
  if isEmpty a || isEmpty b then String.eqb a b
  else if String.eqb a b then true
  else
    let a1 := strip (base a) in
    let b1 := strip (base b) in
    if negb (isEmpty a1) && negb (isEmpty b1) && String.eqb a1 b1 then true
    else if irregularIs a b then true
    else if irregularIs b a then true
    else false.

Definition inWords (l : list string) (s : string) : bool :=
  existsb (String.eqb s) l.

(** [/^(the|and|a|an|to|of|in|on|at|with)$/] *)
Definition stopWords : list string :=
  ["the"; "and"; "a"; "an"; "to"; "of"; "in"; "on"; "at"; "with"].
Definition isStopWord : string -> bool := inWords stopWords.

(** [/^(the|and|a|an|to|of|in|on|at|with|it|is|was)$/] *)
Definition smallWords : list string :=
  stopWords ++ ["it"; "is"; "was"].
Definition isSmallWord : string -> bool := inWords smallWords.

(** [while (i < storyNorm.length && storyNorm[i] === '') i++], on the
    tokens from [i] on. *)
Fixpoint skipEmpty (rest : list string) (i : nat) : nat :=
  match rest with
  | t :: rest' => if isEmpty t then skipEmpty rest' (S i) else i
  | [] => i
  end.

(** The loop [for (const w of spoken)] of [advanceStoryWithTranscript]:
    cursor, [progressed], and the words handed to
    [maybeTriggerStorySfx]. *)
Fixpoint scan (norm : list string) (spoken : list string)
    (i progressed : nat) (fx : list StoryEffect)
  : nat * nat * list StoryEffect :=
  match spoken with
  | [] => (i, progressed, fx)
  | w :: ws =>
      let i1 := skipEmpty (drop i norm) i in
      match norm !! i1 with
      | None => (i1, progressed, fx)
      | Some t =>
          if eqLoose t w
          then scan norm ws (S i1) (S progressed) (fx ++ [TriggerStorySfx w])
          else if isStopWord t
               then scan norm ws (S i1) progressed fx
               else scan norm ws i1 progressed fx
      end
  end.

(** The inner loop of [attemptStoryRecovery] from one start position:
    the number of spoken words matched. *)
Fixpoint runMatched (toks spoken : list string) : nat :=
  match toks, spoken with
  | t :: toks', w :: ws =>
      if isEmpty t then runMatched toks' spoken
      else if eqLoose t w then S (runMatched toks' ws)
      else if isSmallWord t then runMatched toks' spoken
      else 0
  | _, _ => 0
  end.

Definition lookahead : nat := 40.

(** [for (let startIdx = 0; startIdx < window.length - minMatch; startIdx++)]
    with [n] iterations left. *)
Fixpoint findStart (window spoken : list string) (minMatch : nat)
    (n startIdx : nat) : option nat :=
  match n with
  | 0 => None
  | S n' =>
      if (minMatch <=? runMatched (drop startIdx window) spoken)%nat
      then Some startIdx
      else findStart window spoken minMatch n' (S startIdx)
  end.

Definition storyWindow (st : StoryState) : list string :=
  take lookahead (drop (storyIndex st) (storyNorm st)).

Definition attemptStoryRecovery (st : StoryState) (spoken : list string)
  : nat :=
  let minMatch := Nat.min 3 (length spoken) in
  let window := storyWindow st in
  match findStart window spoken minMatch (length window - minMatch) 0 with
  | Some startIdx => storyIndex st + startIdx
  | None => storyIndex st
  end.

(** [this._recentSpoken.slice(-30)] *)
Definition lastN {A} (n : nat) (l : list A) : list A :=
  drop (length l - n) l.

Definition advanceStoryWithTranscript (st : StoryState) (text : string)
  : StoryState * list StoryEffect :=
  if negb (storyActive st) || isEmpty text then (st, [])
  else
    let spoken := spokenWords text in
    match spoken with
    | [] => (st, [])
    | _ =>
        let recent := recentSpoken st ++ spoken in
        let recent := if (30 <? length recent)%nat then lastN 30 recent
                      else recent in
        let st1 := {| storyActive := storyActive st;
                      storyTokens := storyTokens st;
                      storyNorm := storyNorm st;
                      storyIndex := storyIndex st;
                      recentSpoken := recent |} in
        let '(i, progressed, fx) :=
          scan (storyNorm st) spoken (storyIndex st) 0 [] in
        let i :=
          if (progressed =? 0)%nat && (3 <=? length spoken)%nat
          then
            let recovered := attemptStoryRecovery st1 spoken in
            if (storyIndex st <? recovered)%nat then recovered else i
          else i in
        if (storyIndex st <? i)%nat
        then ({| storyActive := storyActive st;
                 storyTokens := storyTokens st;
                 storyNorm := storyNorm st;
                 storyIndex := i;
                 recentSpoken := recent |},
              fx ++ [UpdateStoryHighlight; PrefetchStoryWindow])
        else (st1, fx)
    end.

(** A session: the fragments handed to [advanceStoryWithTranscript] one
    after the other (final and interim fragments take the same path). *)
Definition advanceAll (st : StoryState) (texts : list string) : StoryState :=
  fold_left (fun s t => fst (advanceStoryWithTranscript s t)) texts st.

(** The cursor after each call of a session. *)
Fixpoint cursorTrace (st : StoryState) (texts : list string) : list nat :=
  match texts with
  | [] => []
  | t :: ts =>
      let st' := fst (advanceStoryWithTranscript st t) in
      storyIndex st' :: cursorTrace st' ts
  end.

(** A list of cursor values that never steps down, starting from [a]. *)
Fixpoint nonDecreasingFrom (a : nat) (l : list nat) : Prop :=
  match l with
  | [] => True
  | b :: l' => a <= b /\ nonDecreasingFrom b l'
  end.

(** The relation of the specification, in its words: a run of story
    tokens loosely matches the words [p], separator tokens and stop-words
    being skippable inside the run. *)
Inductive LooseRun : list string -> list string -> Prop :=
| LooseRun_nil toks : LooseRun toks []
| LooseRun_match t w toks ws :
    t <> EmptyString -> eqLoose t w = true ->
    LooseRun toks ws -> LooseRun (t :: toks) (w :: ws)
| LooseRun_separator toks p :
    LooseRun toks p -> LooseRun (EmptyString :: toks) p
| LooseRun_stop t toks p :
    isStopWord t = true -> LooseRun toks p -> LooseRun (t :: toks) p.

(** No run of the next 40 story tokens loosely matches a (non-empty)
    prefix of the batch. *)
Definition NoLoosePrefixRun (st : StoryState) (spoken : list string)
  : Prop :=
  forall start p,
    p <> [] -> p `prefix_of` spoken ->
    ~ LooseRun (drop start (storyWindow st)) p.

(** A token the cursor may pass although no spoken word matched it. *)
Definition skippable (t : string) : bool := isEmpty t || isStopWord t.

(** The aligner opened on a narrative. *)
Definition opened (text : string) : StoryState :=
  showStoryOverlay text (mkStory false [] [] 0 []).

End Story.

(** ** The Cue Extractor's matcher *)
Module Cue.
Import Js.

Record KeywordConfig := mkConfig { query : string; volume : Q }.

(** [this.instantKeywords], in the order of [Object.entries]. *)
Definition instantKeywords : list (string * KeywordConfig) :=
  [ ("bang", mkConfig "gunshot explosion" (9 # 10));
    ("crash", mkConfig "crash metal" (8 # 10));
    ("boom", mkConfig "explosion boom" (9 # 10));
    ("thunder", mkConfig "thunder storm" (8 # 10));
    ("scream", mkConfig "scream horror" (7 # 10));
    ("roar", mkConfig "monster roar" (8 # 10));
    ("growl", mkConfig "monster growl" (8 # 10));
    ("snarl", mkConfig "monster growl" (8 # 10));
    ("ogre", mkConfig "monster growl" (8 # 10));
    ("troll", mkConfig "monster growl" (8 # 10));
    ("orc", mkConfig "monster growl" (8 # 10));
    ("goblin", mkConfig "monster growl" (8 # 10));
    ("beast", mkConfig "monster growl" (8 # 10));
    ("slam", mkConfig "door slam" (7 # 10));
    ("splash", mkConfig "water splash" (6 # 10));
    ("whoosh", mkConfig "wind whoosh" (6 # 10));
    ("thud", mkConfig "heavy thud" (7 # 10));
    ("bark", mkConfig "dog bark" (7 # 10));
    ("woof", mkConfig "dog bark" (7 # 10));
    ("meow", mkConfig "cat meow" (6 # 10));
    ("knock", mkConfig "door knock" (7 # 10));
    ("footsteps", mkConfig "footsteps" (6 # 10));
    ("footstep", mkConfig "footsteps" (6 # 10));
    ("clap", mkConfig "applause" (7 # 10));
    ("applause", mkConfig "applause" (7 # 10));
    ("laugh", mkConfig "laugh" (7 # 10));
    ("giggle", mkConfig "laugh" (6 # 10));
    ("creak", mkConfig "door creak" (6 # 10));
    ("whisper", mkConfig "whisper breath" (5 # 10));
    ("heartbeat", mkConfig "heartbeat" (6 # 10));
    ("jingle", mkConfig "jingle bells" (7 # 10));
    ("sleigh", mkConfig "sleigh bells" (7 # 10));
    ("hohoho", mkConfig "santa laugh ho ho" (8 # 10));
    ("cackle", mkConfig "witch cackle laugh" (7 # 10));
    ("boo", mkConfig "ghost boo" (6 # 10));
    ("howl", mkConfig "wolf howl" (7 # 10)) ].

Definition isWordOpt (c : option ascii) : bool :=
  match c with Some c => isWordChar c | None => false end.

(** [\b] between the character before a position and the one at it. *)
Definition boundary (prev next : option ascii) : bool :=
  xorb (isWordOpt prev) (isWordOpt next).

Definition headChar (s : string) : option ascii :=
  match s with String c _ => Some c | EmptyString => None end.

(** The literal [kw] under the flag [i], read at the start of [s]: the
    last character read (or [prev] when [kw] is empty) and what is left
    of [s]. *)
Fixpoint matchLiteral (kw : string) (prev : option ascii) (s : string)
  : option (option ascii * string) :=
  match kw with
  | EmptyString => Some (prev, s)
  | String k kw' =>
      match s with
      | String c s' =>
          if Ascii.eqb (lowerChar k) (lowerChar c)
          then matchLiteral kw' (Some c) s'
          else None
      | EmptyString => None
      end
  end.

Definition matchHere (kw : string) (prev : option ascii) (s : string)
  : bool :=
  boundary prev (headChar s) &&
  match matchLiteral kw prev s with
  | Some (last, rest) => boundary last (headChar rest)
  | None => false
  end.

(** [new RegExp(`\\b${keyword}\\b`, 'i').test(s)], the keyword being
    made of letters: a match is tried at every position of [s]. *)
Fixpoint testFrom (kw : string) (prev : option ascii) (s : string) : bool :=
  matchHere kw prev s ||
  match s with
  | String c s' => testFrom kw (Some c) s'
  | EmptyString => false
  end.

Definition wordBoundaryTest (kw s : string) : bool := testFrom kw None s.

(** The loop of [checkInstantKeywords]: the first entry of the table
    whose pattern is found in the lower-cased text. *)
Definition firstKeyword (text : string) : option (string * KeywordConfig) :=
  find (fun kc => wordBoundaryTest (fst kc) (toLowerCase text))
    instantKeywords.

End Cue.

(** ** The playback engine: the state of [CueAI] that the director reads
     and writes *)
Module Engine.
Import Js.

Inductive SoundKind := Music | Sfx.

(** An entry of the sound catalog, [{id, type, src, loop}]. *)
Record Sound := mkSound {
  sound_id : string;
  sound_type : SoundKind;
  sound_src : string;
  sound_loop : bool
}.

(** The fields that the methods modelled here only read. A key that is
    [null] or empty is the empty string. *)
Record Settings := mkSettings {
  musicEnabled : bool;
  sfxEnabled : bool;
  predictionEnabled : bool;
  freesoundApiKey : string;
  pixabayApiKey : string;
  savedSoundsEnabled : bool;
  backendUrl : string;
  soundCatalog : list Sound;
  moodBias : Q;
  musicLevel : Q;
  sfxLevel : Q;
  minVolume : Q;
  maxVolume : Q;
  maxSimultaneousSounds : nat;
  sfxCooldownMs : Z
}.

(** The object [{_howl, name, type, volume}] that [playMusicElement]
    stores in [currentMusic]; every value of the slot is built there. *)
Record MusicHandle := mkHandle {
  handle_name : string;
  handle_volume : Q;
  handle_loop : bool
}.

(** [handle.dataset?.id]: the object above has no [dataset] (only the
    audio element of the legacy path had one), the read is [undefined]. *)
Definition datasetId (h : MusicHandle) : option string := None.

(** An entry of [activeSounds]: [{_howl, soundId, name, originalVolume,
    type: 'sfx', startTime}]. *)
Record ActiveSound := mkActive {
  active_name : string;
  originalVolume : Q;
  startTime : Z
}.

(** What reaches the audio library. *)
Inductive AudioEvent :=
| HowlPlay (kind : SoundKind) (name url : string) (vol : Q) (loop : bool)
| HowlFadeOutStop (name : string)
| HowlerStopAll.

Record Engine := mkEngine {
  cfg : Settings;
  currentMode : string;
  currentMusic : option MusicHandle;
  activeSounds : gmap nat ActiveSound;
  sfxCooldowns : gmap string Z;
  soundCache : gmap string string;
  activeBuffers : gset string;
  recentlyPlayed : list string;
  preloadVersion : nat;
  preloadInProgress : bool;
  analysisVersion : nat;
  stingerTimer : bool;
  status : string;
  audioLog : list AudioEvent
}.

Definition setCurrentMusic (m : option MusicHandle) (e : Engine) : Engine :=
  mkEngine (cfg e) (currentMode e) m (activeSounds e) (sfxCooldowns e)
    (soundCache e) (activeBuffers e) (recentlyPlayed e) (preloadVersion e)
    (preloadInProgress e) (analysisVersion e) (stingerTimer e) (status e)
    (audioLog e).
Definition setActiveSounds (a : gmap nat ActiveSound) (e : Engine) : Engine :=
  mkEngine (cfg e) (currentMode e) (currentMusic e) a (sfxCooldowns e)
    (soundCache e) (activeBuffers e) (recentlyPlayed e) (preloadVersion e)
    (preloadInProgress e) (analysisVersion e) (stingerTimer e) (status e)
    (audioLog e).
Definition setSfxCooldowns (c : gmap string Z) (e : Engine) : Engine :=
  mkEngine (cfg e) (currentMode e) (currentMusic e) (activeSounds e) c
    (soundCache e) (activeBuffers e) (recentlyPlayed e) (preloadVersion e)
    (preloadInProgress e) (analysisVersion e) (stingerTimer e) (status e)
    (audioLog e).
Definition setSoundCache (c : gmap string string) (e : Engine) : Engine :=
  mkEngine (cfg e) (currentMode e) (currentMusic e) (activeSounds e)
    (sfxCooldowns e) c (activeBuffers e) (recentlyPlayed e)
    (preloadVersion e) (preloadInProgress e) (analysisVersion e)
    (stingerTimer e) (status e) (audioLog e).
Definition setActiveBuffers (b : gset string) (e : Engine) : Engine :=
  mkEngine (cfg e) (currentMode e) (currentMusic e) (activeSounds e)
    (sfxCooldowns e) (soundCache e) b (recentlyPlayed e)
    (preloadVersion e) (preloadInProgress e) (analysisVersion e)
    (stingerTimer e) (status e) (audioLog e).
Definition setRecentlyPlayed (r : list string) (e : Engine) : Engine :=
  mkEngine (cfg e) (currentMode e) (currentMusic e) (activeSounds e)
    (sfxCooldowns e) (soundCache e) (activeBuffers e) r
    (preloadVersion e) (preloadInProgress e) (analysisVersion e)
    (stingerTimer e) (status e) (audioLog e).
Definition setPreloadVersion (v : nat) (e : Engine) : Engine :=
  mkEngine (cfg e) (currentMode e) (currentMusic e) (activeSounds e)
    (sfxCooldowns e) (soundCache e) (activeBuffers e) (recentlyPlayed e)
    v (preloadInProgress e) (analysisVersion e)
    (stingerTimer e) (status e) (audioLog e).
Definition setAnalysisVersion (v : nat) (e : Engine) : Engine :=
  mkEngine (cfg e) (currentMode e) (currentMusic e) (activeSounds e)
    (sfxCooldowns e) (soundCache e) (activeBuffers e) (recentlyPlayed e)
    (preloadVersion e) (preloadInProgress e) v
    (stingerTimer e) (status e) (audioLog e).
Definition setCurrentMode (m : string) (e : Engine) : Engine :=
  mkEngine (cfg e) m (currentMusic e) (activeSounds e)
    (sfxCooldowns e) (soundCache e) (activeBuffers e) (recentlyPlayed e)
    (preloadVersion e) (preloadInProgress e) (analysisVersion e)
    (stingerTimer e) (status e) (audioLog e).
Definition setStingerTimer (b : bool) (e : Engine) : Engine :=
  mkEngine (cfg e) (currentMode e) (currentMusic e) (activeSounds e)
    (sfxCooldowns e) (soundCache e) (activeBuffers e) (recentlyPlayed e)
    (preloadVersion e) (preloadInProgress e) (analysisVersion e)
    b (status e) (audioLog e).
(** [updateStatus(message)] *)
Definition updateStatus (s : string) (e : Engine) : Engine :=
  mkEngine (cfg e) (currentMode e) (currentMusic e) (activeSounds e)
    (sfxCooldowns e) (soundCache e) (activeBuffers e) (recentlyPlayed e)
    (preloadVersion e) (preloadInProgress e) (analysisVersion e)
    (stingerTimer e) s (audioLog e).
Definition emit (ev : AudioEvent) (e : Engine) : Engine :=
  mkEngine (cfg e) (currentMode e) (currentMusic e) (activeSounds e)
    (sfxCooldowns e) (soundCache e) (activeBuffers e) (recentlyPlayed e)
    (preloadVersion e) (preloadInProgress e) (analysisVersion e)
    (stingerTimer e) (status e) (audioLog e ++ [ev]).

(** What is audible and what gates the next sound effect: the music
    slot, the collection of active sounds, the audio events so far and
    the cooldown ledger. *)
Definition playback (e : Engine)
  : option MusicHandle * gmap nat ActiveSound * list AudioEvent
    * gmap string Z :=
  (currentMusic e, activeSounds e, audioLog e, sfxCooldowns e).

(** The readings of the environment during one call: [Date.now()] at the
    cooldown test, at the start of playback and when the cooldown is set;
    the key [Date.now() + Math.random()] of the new entry of
    [activeSounds]; and whether the audio library works ([false]: the
    [try] of [playAudio] catches an exception of [new Howl]). *)
Record Tick := mkTick {
  t_check : Z;
  t_start : Z;
  t_set : Z;
  fresh : nat;
  howl_ok : bool
}.

(** [x || d] on a number that may be missing. *)
Definition orDefault (x : option Q) (d : Q) : Q :=
  match x with
  | Some v => if Qeq_bool v 0 then d else v
  | None => d
  end.

(** [Math.max(0, Math.min(1, x))] *)
Definition clamp01 (x : Q) : Q := Qmax 0 (Qmin 1 x).

(** [this.soundCatalog.find(s => s.id === id)] *)
Definition findSound (e : Engine) (id : string) : option Sound :=
  find (fun s => String.eqb (sound_id s) id) (soundCatalog (cfg e)).

Definition hasKey (k : string) : bool := negb (isEmpty k).

(** The full URL of a catalog entry. *)
Definition soundUrl (e : Engine) (s : Sound) : string :=
  if startsWith "http://" (sound_src s) || startsWith "https://" (sound_src s)
  then sound_src s
  else String.append (backendUrl (cfg e)) (sound_src s).

Definition getSfxBucket (query : string) : string :=
  let q := toLowerCase query in
  if includes q "door" then "door"
  else if includes q "footstep" then "footsteps"
  else if includes q "whoosh" || includes q "wind" then "wind"
  else if includes q "wolf" && includes q "howl" then "wolf-howl"
  else if includes q "jingle" || includes q "bell" then "bells"
  else if includes q "thunder" then "thunder"
  else if includes q "creak" then "creak"
  else if includes q "knock" then "knock"
  else trim (collapseSpaces q).

(** [calculateVolume(intensity)] *)
Definition calculateVolume (e : Engine) (intensity : Q) : Q :=
  (minVolume (cfg e)
   + intensity * (maxVolume (cfg e) - minVolume (cfg e)))%Q.

(** [scheduleNextStinger()]: the timer is armed (again) when sound
    effects and prediction are on. *)
Definition scheduleNextStinger (e : Engine) : Engine :=
  if negb (sfxEnabled (cfg e)) || negb (predictionEnabled (cfg e)) then e
  else setStingerTimer true e.

(** [playMusicElement(url, options)]: the old track is faded out and
    stopped by a timer, the new one starts and takes the slot. *)
Definition playMusicElement (e : Engine) (url name : string) (vol : Q)
    (loop : bool) : Engine * option MusicHandle :=
  let e1 := match currentMusic e with
            | Some old => emit (HowlFadeOutStop (handle_name old)) e
            | None => e
            end in
  let h := mkHandle name vol loop in
  (setCurrentMusic (Some h) (emit (HowlPlay Music name url vol loop) e1),
   Some h).

(** [playSFXBuffer(url, options)]: a new Howl plays and is entered in
    [activeSounds].  (The ducking envelope of the music volume and the
    prefetch of alternates, which only fills caches, are left out.) *)
Definition playSFXBuffer (e : Engine) (url name : string) (vol : Q)
    (tk : Tick) : Engine * bool :=
  let original := clamp01 vol in
  let effective := clamp01 (original * sfxLevel (cfg e))%Q in
  let e1 := emit (HowlPlay Sfx name url effective false) e in
  (setActiveSounds
     (<[fresh tk := mkActive name original (t_start tk)]> (activeSounds e1))
     e1,
   true).

(** [playAudio(url, options)] for [type: 'sfx']; the result says whether
    the returned value is truthy. *)
Definition playAudioSfx (e : Engine) (url name : string) (vol : Q)
    (tk : Tick) : Engine * bool :=
  if isEmpty url then (e, false)
  else if howl_ok tk then playSFXBuffer e url name vol tk
  else (updateStatus "Audio playback error - sound may be blocked" e, false).

(** [playAudio(url, options)] for [type: 'music']. *)
Definition playAudioMusic (e : Engine) (url name : string) (vol : Q)
    (loop ok : bool) : Engine * bool :=
  if isEmpty url then (e, false)
  else if ok then
         let '(e', _) := playMusicElement e url name vol loop in (e', true)
       else (updateStatus "Audio playback error - sound may be blocked" e,
             false).

(** A music decision of the backend, [{id, action, volume}]. *)
Record MusicData := mkMusicData {
  music_id : string;
  music_action : string;
  music_volume : option Q
}.

(** A sound-effect decision of the backend, [{id, when, volume}]. *)
Record SfxData := mkSfxData {
  sfx_id : string;
  sfx_when : string;
  sfx_volume : option Q
}.

(** [this.currentMusic && this.currentMusic.dataset?.id === id] *)
Definition sameMusicPlaying (e : Engine) (id : string) : bool :=
  match currentMusic e with
  | Some h => match datasetId h with
              | Some d => String.eqb d id
              | None => false
              end
  | None => false
  end.

(** [updateMusicById(musicData)]; [ok] says whether the audio library
    works (see [playAudioMusic]). *)
Definition updateMusicById (e : Engine) (musicData : MusicData) (ok : bool)
  : Engine :=
  if negb (musicEnabled (cfg e))
  then updateStatus "Music disabled (toggle off)" e
  else
    match findSound e (music_id musicData) with
    | None => e
    | Some sound =>
        if String.eqb (music_action musicData) "play_or_continue"
           && sameMusicPlaying e (music_id musicData)
        then e
        else
          let moodMul := ((85 # 100) + moodBias (cfg e) * (3 # 10))%Q in
          let baseVol := orDefault (music_volume musicData) (5 # 10) in
          let effectiveVol :=
            clamp01 (baseVol * moodMul * musicLevel (cfg e))%Q in
          let '(e1, _) :=
            playAudioMusic e (soundUrl e sound) (sound_id sound)
              effectiveVol (sound_loop sound || true) ok in
          scheduleNextStinger e1
    end.

(** [playSoundEffectById(sfxData)].  Its [await] waits for no I/O
    ([playAudio] and [playSFXBuffer] run to their end at the call), so the
    method is one step: no other event is handled between its tests and
    its writes. *)
Definition playSoundEffectById (e : Engine) (sfxData : SfxData) (tk : Tick)
  : Engine :=
  if negb (sfxEnabled (cfg e))
  then updateStatus "SFX disabled (toggle off)" e
  else if (maxSimultaneousSounds (cfg e) <=? size (activeSounds e))%nat
  then e
  else
    match findSound e (sfx_id sfxData) with
    | None => e
    | Some sound =>
        let bucket := getSfxBucket (sfx_id sfxData) in
        let nextAllowed := default 0%Z (sfxCooldowns e !! bucket) in
        if (t_check tk <? nextAllowed)%Z then e
        else
          let effectiveVol :=
            clamp01 (orDefault (sfx_volume sfxData) (7 # 10)
                     * sfxLevel (cfg e))%Q in
          let '(e1, played) :=
            playAudioSfx e (soundUrl e sound) (sound_id sound)
              effectiveVol tk in
          if played
          then setSfxCooldowns
                 (<[bucket := (t_set tk + sfxCooldownMs (cfg e))%Z]>
                    (sfxCooldowns e1)) e1
          else e1
    end.

(** *** Resolving a query: [searchAudio(query, 'sfx')] *)

(** What the sources answer: the file that [searchLocalSaved] finds, and
    the outcome of the request to Freesound. *)
Inductive Remote := Found (url : string) | NoResult | Failed.
Record SearchReply := mkReply {
  local_hit : option string;
  remote : Remote
}.

(** The query that [searchFreesound] sends for a sound effect. *)
Definition simplifySfxQuery (query : string) : string :=
  let k := toLowerCase query in
  if includes k "footsteps" && includes k "leaves" then "footsteps grass"
  else if includes k "dragon" && includes k "roar" then "monster roar"
  else if includes k "birds" && includes k "chirp" then "birds chirping"
  else if includes k "storm" && includes k "brewing" then "thunder storm"
  else query.

Definition cacheKey (query : string) : string := String.append "sfx:" query.

(** [recentlyPlayed.add(url)], then the oldest entry goes when more than
    20 are kept. *)
Definition rememberPlayed (url : string) (l : list string) : list string :=
  let l1 := if existsb (String.eqb url) l then l else l ++ [url] in
  if (20 <? length l1)%nat then drop 1 l1 else l1.

(** [searchFreesound(query, 'sfx')] with the key set. *)
Definition searchFreesound (e : Engine) (query : string) (r : Remote)
  : Engine * option string :=
  let searchQuery := simplifySfxQuery query in
  match soundCache e !! cacheKey searchQuery with
  | Some url => (e, Some url)
  | None =>
      let e1 :=
        updateStatus
          (String.append "Searching Freesound for: "
             (String.append searchQuery "...")) e in
      match r with
      | Found url =>
          let e2 := setSoundCache
                      (<[cacheKey searchQuery := url]> (soundCache e1)) e1 in
          let e3 := if isEmpty url then e2
                    else setRecentlyPlayed
                           (rememberPlayed url (recentlyPlayed e2)) e2 in
          (e3, Some url)
      | NoResult => (e1, None)
      | Failed =>
          (updateStatus "Freesound search failed, retrying..." e1, None)
      end
  end.

(** A URL that is neither missing nor empty. *)
Definition truthy (u : option string) : option string :=
  match u with
  | Some url => if isEmpty url then None else Some url
  | None => None
  end.

(** [searchAudio(query, 'sfx')]: the saved sounds, then Pixabay (which
    has no audio and answers [null]), then Freesound.  The writes to the
    caches are made when the answer is in. *)
Definition searchAudio (e : Engine) (query : string) (reply : SearchReply)
  : Engine * option string :=
  match (if savedSoundsEnabled (cfg e) then truthy (local_hit reply)
         else None) with
  | Some url =>
      (setSoundCache (<[cacheKey query := url]> (soundCache e)) e, Some url)
  | None =>
      if hasKey (freesoundApiKey (cfg e))
      then searchFreesound e query (remote reply)
      else (e, None)
  end.

(** What [searchAudio(query, 'sfx')] does inside the call that evaluates
    it, before its first suspension: the saved sounds are looked up
    ([local] is what [searchLocalSaved] finds) and a hit is written to the
    URL cache; with a Pixabay key the method is then suspended at [await
    this.searchPixabay(...)]; otherwise [searchFreesound] starts: it looks
    the simplified query up in the URL cache and, when it is not there,
    writes the status line and sends the request. *)
Definition searchAudio_begin (e : Engine) (query : string)
    (local : option string) : Engine :=
  match (if savedSoundsEnabled (cfg e) then truthy local else None) with
  | Some url => setSoundCache (<[cacheKey query := url]> (soundCache e)) e
  | None =>
      if hasKey (pixabayApiKey (cfg e)) then e
      else if hasKey (freesoundApiKey (cfg e))
      then
        let searchQuery := simplifySfxQuery query in
        match soundCache e !! cacheKey searchQuery with
        | Some _ => e
        | None =>
            updateStatus
              (String.append "Searching Freesound for: "
                 (String.append searchQuery "...")) e
        end
      else e
  end.

(** *** The legacy path [playSoundEffect({query, priority, volume})] *)

Record SfxRequest := mkRequest {
  req_query : string;
  req_priority : nat;
  req_volume : option Q
}.

(** A call of [playSoundEffect] that has passed its gates and waits for
    the answer of [this.searchAudio(...)]. *)
Record PendingSfx := mkPending {
  pend_request : SfxRequest;
  pend_bucket : string
}.

(** The gates: from the call to the point where [this.searchAudio(...)]
    is evaluated.  The result is the engine there and the request that
    passed the gates; what the search then does inside the same call is
    [searchAudio_begin]. *)
Definition playSoundEffect_begin (e : Engine) (sfxData : SfxRequest)
    (now : Z) : Engine * option PendingSfx :=
  if negb (sfxEnabled (cfg e))
  then (updateStatus "SFX disabled (toggle off)" e, None)
  else if (maxSimultaneousSounds (cfg e) <=? size (activeSounds e))%nat
  then (e, None)
  else
    let bucket := getSfxBucket (req_query sfxData) in
    let nextAllowed := default 0%Z (sfxCooldowns e !! bucket) in
    if (now <? nextAllowed)%Z then (e, None)
    else (e, Some (mkPending sfxData bucket)).

(** The search and what follows its answer, as one step taken when the
    answer is in: [searchAudio] from its start (its writes to the status
    line and to the URL cache included) and then the playback and the
    cooldown. *)
Definition playSoundEffect_resume (e : Engine) (p : PendingSfx)
    (reply : SearchReply) (tk : Tick) : Engine :=
  let q := req_query (pend_request p) in
  let '(e1, found) := searchAudio e q reply in
  match truthy found with
  | None => e1
  | Some url =>
      let vol := calculateVolume e1
                   (orDefault (req_volume (pend_request p)) (7 # 10)) in
      let '(e2, played) := playAudioSfx e1 url q vol tk in
      if played
      then setSfxCooldowns
             (<[pend_bucket p := (t_set tk + sfxCooldownMs (cfg e))%Z]>
                (sfxCooldowns e2)) e2
      else e2
  end.

(** *** Stingers *)

Definition getModeStingers (mode : string) : list string :=
  if String.eqb mode "bedtime" then ["owl hoot"; "wind whoosh"; "fire crackling"]
  else if String.eqb mode "dnd" then ["magic whoosh"; "coin jingle"; "torch crackle"]
  else if String.eqb mode "horror" then ["whisper"; "heartbeat"; "radio static"]
  else if String.eqb mode "halloween" then ["witch cackle"; "wolf howl"; "door creak"]
  else if String.eqb mode "christmas" then ["jingle bells"; "bell chime"; "wind arctic"]
  else if String.eqb mode "sing" then ["crowd cheer"; "applause"; "clap"]
  else ["wind whoosh"; "door creak"; "footsteps"].

(** The callback of the stinger timer, [pick] being
    [Math.floor(Math.random() * stingerSet.length)]: it resolves the
    chosen query and plays it through [playAudio], then arms the timer
    again. *)
Definition stingerFire (e : Engine) (pick : nat) (reply : SearchReply)
    (tk : Tick) : Engine :=
  let stingerSet := getModeStingers (currentMode e) in
  let choice := nth (pick mod length stingerSet) stingerSet EmptyString in
  let '(e1, found) := searchAudio (setStingerTimer false e) choice reply in
  let e2 :=
    match truthy found with
    | Some url =>
        fst (playAudioSfx e1 url choice (calculateVolume e1 (5 # 10)) tk)
    | None => e1
    end in
  scheduleNextStinger e2.

(** *** Stopping and changing mode *)

Definition stopAllAudio (e : Engine) : Engine :=
  setActiveSounds ∅
    (setCurrentMusic None
       (emit HowlerStopAll (setStingerTimer false e))).

(** [selectMode(mode)]: the analysis epoch is bumped, the URL cache and
    the recent URLs are cleared, all audio stops, and the preload epoch is
    bumped; the preload that a timer starts 200 ms later carries the token
    returned here.  (The transcript buffer and the page are not part of
    the state; the dash of the status line is written "-".) *)
Definition selectMode (e : Engine) (mode : string) : Engine * nat :=
  let e1 := setCurrentMode mode e in
  let e2 := setAnalysisVersion (S (analysisVersion e1)) e1 in
  let e3 := setRecentlyPlayed [] (setSoundCache ∅ e2) in
  let e4 := stopAllAudio e3 in
  let e5 := updateStatus
              (String.append "Mode changed to: "
                 (String.append (toUpperCase mode)
                    " - reset sounds and context.")) e4 in
  let version := S (preloadVersion e5) in
  (setPreloadVersion version e5, version).

(** *** The Cue Extractor *)

(** [checkInstantKeywords(text)]: the first keyword found is handed to
    [playInstantSound], which calls [playSoundEffect] with priority 10.
    The result is the engine when that call has passed its gates, and the
    request that [playSoundEffect] hands to [searchAudio] (the method
    itself returns nothing); the engine when the method returns is
    [checkInstantKeywords_returned]. *)
Definition checkInstantKeywords (e : Engine) (text : string) (now : Z)
  : Engine * option PendingSfx :=
  if (negb (hasKey (freesoundApiKey (cfg e)))
      && negb (hasKey (pixabayApiKey (cfg e))))
     || isEmpty text || negb (sfxEnabled (cfg e))
  then (e, None)
  else
    match Cue.firstKeyword text with
    | Some (_, config) =>
        playSoundEffect_begin e
          (mkRequest (Cue.query config) 10 (Some (Cue.volume config))) now
    | None => (e, None)
    end.

(** The engine when [checkInstantKeywords(text)] returns: the call of
    [playSoundEffect] that it made has run until [searchAudio] is
    suspended, so the synchronous start of the search is done. *)
Definition checkInstantKeywords_returned (e : Engine) (text : string)
    (now : Z) (local : option string) : Engine :=
  match checkInstantKeywords e text now with
  | (e1, Some p) => searchAudio_begin e1 (req_query (pend_request p)) local
  | (e1, None) => e1
  end.

(** The story cue [maybeTriggerStorySfx(word)] for a word of the cue map
    with query [q]: [playSoundEffect({query: q, priority: 6, volume: 0.7})]. *)
Definition storyCueRequest (q : string) : SfxRequest :=
  mkRequest q 6 (Some (7 # 10)).

(** *** Preload tasks *)

(** Where a task of [preloadSfxForCurrentMode] stands: not yet taken by
    a worker of [runWithConcurrency], or suspended at one of its
    [await]s, or done. *)
Inductive TaskState :=
| Queued (q : string)
| AwaitSearch (q : string)
| AwaitFetch (url : string)
| AwaitArrayBuffer (url : string)
| AwaitDecode (url : string)
| Finished.

(** What wakes a task: a worker takes it, the search answers, or a step
    of the download ends ([false]: it throws, and the [catch] of the task
    swallows the exception). *)
Inductive Resume :=
| Taken
| SearchDone (reply : SearchReply)
| IoDone (ok : bool).

Definition fullyReady (e : Engine) (q : string) : bool :=
  match soundCache e !! cacheKey q with
  | Some cachedUrl =>
      negb (isEmpty cachedUrl) && bool_decide (cachedUrl ∈ activeBuffers e)
  | None => false
  end.

(** One step of the task [async () => { ... }] built for the query it
    holds, with the token [versionToken] of its preload. *)
Definition taskStep (versionToken : nat) (e : Engine) (t : TaskState)
    (r : Resume) : Engine * TaskState :=
  match t, r with
  | Queued q, Taken =>
      if negb (versionToken =? preloadVersion e)%nat then (e, Finished)
      else if fullyReady e q then (e, Finished)
      else (e, AwaitSearch q)
  | AwaitSearch q, SearchDone reply =>
      let '(e1, found) := searchAudio e q reply in
      match truthy found with
      | None => (e1, Finished)
      | Some url =>
          if bool_decide (url ∈ activeBuffers e1) then (e1, Finished)
          else (e1, AwaitFetch url)
      end
  | AwaitFetch url, IoDone ok =>
      (e, if ok then AwaitArrayBuffer url else Finished)
  | AwaitArrayBuffer url, IoDone ok =>
      (e, if ok then AwaitDecode url else Finished)
  | AwaitDecode url, IoDone ok =>
      if ok then (setActiveBuffers ({[url]} ∪ activeBuffers e) e, Finished)
      else (e, Finished)
  | _, _ => (e, t)
  end.

(** Everything but the URL cache, the buffer cache, the list of recent
    URLs and the status line. *)
Definition beyondCaches (e : Engine) :=
  (cfg e, currentMode e, currentMusic e, activeSounds e, sfxCooldowns e,
   preloadVersion e, preloadInProgress e, analysisVersion e, stingerTimer e,
   audioLog e).

(** What happens around a task: the mode changes ([selectMode]),
    listening starts ([startListening] ends with [++this.preloadVersion]),
    or the task itself is resumed. *)
Inductive Event :=
| ModeChange (mode : string)
| ListeningStarted
| TaskResume (r : Resume).

Definition isTaskResume (ev : Event) : bool :=
  match ev with TaskResume _ => true | _ => false end.

Definition eventStep (versionToken : nat) (w : Engine * TaskState)
    (ev : Event) : Engine * TaskState :=
  match ev with
  | ModeChange mode => (fst (selectMode (fst w) mode), snd w)
  | ListeningStarted =>
      (setPreloadVersion (S (preloadVersion (fst w))) (fst w), snd w)
  | TaskResume r => taskStep versionToken (fst w) (snd w) r
  end.

(** An interleaving of epoch bumps with the steps of one task. *)
Definition runEvents (versionToken : nat) (evs : list Event)
    (w : Engine * TaskState) : Engine * TaskState :=
  fold_left (eventStep versionToken) evs w.

(** The same history without the steps of the task. *)
Definition withoutTask (evs : list Event) : list Event :=
  filter (fun ev => isTaskResume ev = false) evs.

(** *** Counting playback starts *)

Definition isPlay (ev : AudioEvent) : bool :=
  match ev with HowlPlay _ _ _ _ _ => true | _ => false end.

(** The number of playback starts so far. *)
Definition plays (e : Engine) : nat :=
  length (filter (fun ev => isPlay ev = true) (audioLog e)).

(** The names handed to the audio library to be played. *)
Definition playedNames (e : Engine) : list string :=
  omap (fun ev => match ev with
                  | HowlPlay _ name _ _ _ => Some name
                  | _ => None
                  end) (audioLog e).

(** *** Story cues *)

(** [getStoryCueMap()] *)
Definition getStoryCueMap : list (string * string) :=
  [ ("bell", "bell chime"); ("bells", "bell chime"); ("clock", "tick tock");
    ("midnight", "clock chime"); ("horse", "horse galloping");
    ("horses", "horse galloping"); ("coach", "carriage creak");
    ("step", "footsteps"); ("steps", "footsteps"); ("door", "door creak");
    ("knock", "door knock"); ("wind", "wind whoosh"); ("storm", "thunder");
    ("thunder", "thunder"); ("rain", "rain on windows"); ("owl", "owl hoot");
    ("wolf", "wolf howl"); ("crowd", "crowd cheering");
    ("applause", "applause"); ("fire", "fireplace"); ("flame", "fireplace");
    ("witch", "witch cackle"); ("magic", "magic whoosh");
    ("spell", "magic spell"); ("sword", "sword swing");
    ("glass", "glass shatter"); ("mirror", "glass shatter");
    ("beast", "monster growl"); ("dragon", "dragon growl");
    ("heart", "heartbeat"); ("cry", "woman scream");
    ("scream", "woman scream") ].

(** [maybeTriggerStorySfx(word)], up to the point where the call of
    [playSoundEffect] that it makes evaluates [this.searchAudio(...)].
    (For a word that is only an inherited key of the map the call throws
    inside the promise and nothing happens.) *)
Definition maybeTriggerStorySfx (e : Engine) (word : string) (now : Z)
  : Engine * option PendingSfx :=
  if negb (sfxEnabled (cfg e)) then (e, None)
  else
    match Story.assoc word getStoryCueMap with
    | Some q =>
        if isEmpty q then (e, None)
        else playSoundEffect_begin e (mkRequest q 6 (Some (7 # 10))) now
    | None => (e, None)
    end.

(** The calls of [maybeTriggerStorySfx] that one pass of
    [advanceStoryWithTranscript] makes, in order, each through the gates
    of [playSoundEffect]; the searches answer, and the calls resume, after
    the pass has returned. *)
Fixpoint triggerStoryCues (e : Engine) (fx : list Story.StoryEffect)
    (now : Z) : Engine * list PendingSfx :=
  match fx with
  | [] => (e, [])
  | Story.TriggerStorySfx w :: fx' =>
      let '(e1, p) := maybeTriggerStorySfx e w now in
      let '(e2, ps) := triggerStoryCues e1 fx' now in
      (e2, match p with Some p => p :: ps | None => ps end)
  | _ :: fx' => triggerStoryCues e fx' now
  end.

(** The suspended calls resume one after the other, each with the
    answer to its search and its own readings. *)
Fixpoint resumeAll (e : Engine) (ps : list PendingSfx)
    (answers : list (SearchReply * Tick)) : Engine :=
  match ps, answers with
  | p :: ps', (reply, tk) :: answers' =>
      resumeAll (playSoundEffect_resume e p reply tk) ps' answers'
  | _, _ => e
  end.

End Engine.

(** ** The id validation of [POST /analyze] (server) *)
Module Server.
Import Js Engine.

(** The decision that the model returns, [{scene, music, sfx}]; a music
    decision without [id] has the empty id. *)
Record Decision := mkDecision {
  scene : string;
  music : option MusicData;
  sfx : list SfxData
}.

Definition known (catalog : list Sound) (id : string) : bool :=
  existsb (fun s => String.eqb (sound_id s) id) catalog.

(** "Validate IDs exist in catalog": the lines between parsing the
    answer and [res.json(decision)]. *)
Definition validateDecision (catalog : list Sound) (d : Decision)
  : Decision :=
  let music' :=
    match music d with
    | Some m =>
        if negb (isEmpty (music_id m)) && negb (known catalog (music_id m))
        then None else Some m
    | None => None
    end in
  mkDecision (scene d) music'
    (filter (fun s => known catalog (sfx_id s) = true) (sfx d)).

End Server.

(** ** Applying a decision on the client *)
Module Client.
Import Js Engine Server.

(** [processSoundDecisions(decisions)]: the music decision, then every
    sound-effect decision, one call after the other.  (The fade-out of the
    sound effects that have played for more than 2 s, which starts no
    sound, is left out.) *)
Definition applyMusic (e : Engine) (d : Decision) (ok : bool) : Engine :=
  match music d with
  | Some m =>
      if musicEnabled (cfg e) && negb (isEmpty (music_id m))
      then updateMusicById e m ok else e
  | None => e
  end.

Fixpoint applySfx (e : Engine) (l : list SfxData) (tks : list Tick)
  : Engine :=
  match l, tks with
  | s :: l', tk :: tks' => applySfx (playSoundEffectById e s tk) l' tks'
  | _, _ => e
  end.

Definition applyDecision (e : Engine) (d : Decision) (ok : bool)
    (tks : list Tick) : Engine :=
  if negb (predictionEnabled (cfg e)) then e
  else
    let e1 := applyMusic e d ok in
    let e2 := if sfxEnabled (cfg e1) then applySfx e1 (sfx d) tks else e1 in
    updateStatus (if isEmpty (scene d) then "Playing sounds..." else scene d)
      e2.

End Client.

(** ** Inputs of the scenarios *)
Module Scenario.
Import Js Engine Server.

Definition catalog : list Sound :=
  [ mkSound "calm_theme" Music "/media/music/calm_theme.mp3" true;
    mkSound "peaceful_theme" Music "/media/music/peaceful_theme.mp3" true;
    mkSound "epic_theme" Music "/media/music/epic_theme.mp3" true;
    mkSound "ep_door_creak_01" Sfx "/media/sfx/door_creak_01.mp3" false;
    mkSound "ep_door_slam_01" Sfx "/media/sfx/door_slam_01.mp3" false;
    mkSound "ep_thunder_01" Sfx "/media/sfx/thunder_01.mp3" false;
    mkSound "ep_owl_hoot_01" Sfx "/media/sfx/owl_hoot_01.mp3" false ].

(** The defaults of the constructor, with a Freesound key set. *)
Definition settings : Settings :=
  mkSettings true true true "freesound-key" EmptyString false
    "https://cueai-backend.onrender.com" catalog
    (1 # 2) (1 # 2) (9 # 10) (2 # 10) (7 # 10) 3 3500.

Definition fresh_engine : Engine :=
  mkEngine settings "dnd" None ∅ ∅ ∅ ∅ [] 0 false 0 false EmptyString [].

Definition tick (now : Z) (key : nat) : Tick :=
  mkTick now now now key true.

Definition found (url : string) : SearchReply :=
  mkReply None (Found url).

(** Three music decisions in a row: calm, then peaceful, then epic. *)
Definition decide_music (id : string) : MusicData :=
  mkMusicData id "play_or_continue" (Some (1 # 2)).
Definition after_calm : Engine :=
  updateMusicById fresh_engine (decide_music "calm_theme") true.
Definition after_peaceful : Engine :=
  updateMusicById after_calm (decide_music "peaceful_theme") true.
Definition after_epic : Engine :=
  updateMusicById after_peaceful (decide_music "epic_theme") true.

(** The fragment "a dog bark" with every gate open, and the engine
    once the search of the request it left in flight has answered. *)
Definition after_bark : Engine :=
  match snd (checkInstantKeywords fresh_engine "a dog bark" 1000) with
  | Some p =>
      playSoundEffect_resume
        (fst (checkInstantKeywords fresh_engine "a dog bark" 1000)) p
        (found "https://cdn.freesound.org/previews/bark.mp3")
        (tick 1400 1)
  | None => fresh_engine
  end.

(** A narrative with four cue words, read aloud in one fragment. *)
Definition cue_story : Story.StoryState :=
  Story.opened "The bell, the clock, the horse and the door.".
Definition cue_fragment : string :=
  "the bell the clock the horse and the door".
Definition cue_calls : Engine * list PendingSfx :=
  triggerStoryCues fresh_engine
    (snd (Story.advanceStoryWithTranscript cue_story cue_fragment)) 1000.
Definition after_cues : Engine :=
  resumeAll (fst cue_calls) (snd cue_calls)
    [ (found "https://cdn.freesound.org/previews/1.mp3", tick 1500 1);
      (found "https://cdn.freesound.org/previews/2.mp3", tick 1510 2);
      (found "https://cdn.freesound.org/previews/3.mp3", tick 1520 3);
      (found "https://cdn.freesound.org/previews/4.mp3", tick 1530 4) ].

(** Music starts (which arms the stinger timer), three sound effects of
    three buckets follow, a fourth is refused, and then the stinger timer
    fires. *)
Definition sfx_now (id : string) : SfxData := mkSfxData id "immediate" None.
Definition three_active : Engine :=
  playSoundEffectById
    (playSoundEffectById
       (playSoundEffectById after_calm (sfx_now "ep_door_creak_01")
          (tick 20000 1))
       (sfx_now "ep_thunder_01") (tick 20100 2))
    (sfx_now "ep_owl_hoot_01") (tick 20200 3).
Definition fourth_refused : Engine :=
  playSoundEffectById three_active (sfx_now "ep_door_slam_01") (tick 24000 4).
Definition after_stinger : Engine :=
  stingerFire three_active 0
    (found "https://cdn.freesound.org/previews/5.mp3") (tick 20300 5).

End Scenario.

(** ** What a list of tokens spells, and strings over a class *)
Module Reading.
Import Js.

(** [tokens.join('')] *)
Definition spell (tokens : list string) : string :=
  fold_right String.append EmptyString tokens.

(** Every character of [s] is in the class [p]. *)
Fixpoint allChars (p : ascii -> bool) (s : string) : bool :=
  match s with
  | EmptyString => true
  | String c s' => p c && allChars p s'
  end.

(** No character of [s] is in the class [p]. *)
Definition noChars (p : ascii -> bool) (s : string) : bool :=
  allChars (fun c => negb (p c)) s.

(** A token is a word (characters of [[\w']] only) or a separator (none
    of them). *)
Definition tokenKind (t : string) : bool :=
  allChars Story.isTokenChar t || noChars Story.isTokenChar t.

(** [[a-z0-9'\s]]: the characters that the clean-up of a transcript
    fragment keeps. *)
Definition spokenChar (c : ascii) : bool := isNormChar c || isSpace c.

(** [pieces.filter(Boolean)] *)
Definition nonEmptyWords (l : list string) : list string :=
  filter (fun w => isEmpty w = false) l.

(** Whether [s] ends with the literal [suf], read with the suffix
    matcher that [eqLoose] uses. *)
Definition endsWith (suf s : string) : bool :=
  match stripSuffix suf s with Some _ => true | None => false end.

(** No entry of the irregular table relates a word to the word followed
    by [suf], in either direction. *)
Definition tableAvoids (suf : string) : bool :=
  forallb (fun kv : string * string =>
             match stripSuffix suf (fst kv) with
             | Some r => negb (String.eqb r (snd kv))
             | None => true
             end
             && match stripSuffix suf (snd kv) with
                | Some r => negb (String.eqb r (fst kv))
                | None => true
                end) Story.irregular.

End Reading.

(** ** What the audio library is asked to play *)
Module Audible.
Import Js Engine.




End Audible.

(** ** Live analysis: [maybeAnalyzeLive] and [analyzeContext] *)
Module Analysis.
Import Js Engine Server Client.

(** The fields of the recogniser loop. *)
Record Listener := mkListener {
  transcriptBuffer : list string;
  currentInterim : string;
  lastAnalysisTime : Z;
  analysisInterval : Z;
  analysisInProgress : bool
}.

(** [parts.join(sep)] *)
Fixpoint join (sep : string) (parts : list string) : string :=
  match parts with
  | [] => EmptyString
  | [x] => x
  | x :: rest => String.append x (String.append sep (join sep rest))
  end.

(** [this.transcriptBuffer.slice(-10).join(' ')] *)
Definition recentText (l : Listener) : string :=
  join " " (Story.lastN 10 (transcriptBuffer l)).

(** What the backend call settles with: a decision, [null], or a
    rejection. *)
Inductive Response := Answer (d : Decision) | NoAnswer | Rejected.

(** [analyzeContext(customTranscript)] up to [await
    this.callBackendAnalyze]: the request is in flight with the value of
    [analysisVersion] it captured. *)
Definition analyzeContext_begin (e : Engine) (l : Listener)
    (customTranscript : option string) : Engine * option nat :=
  let recentTranscript :=
    trim (match customTranscript with
          | Some t => t
          | None => recentText l
          end) in
  if isEmpty recentTranscript then (e, None)
  else (updateStatus "Analyzing context..." e, Some (analysisVersion e)).

(** [analyzeContext] from the answer on. *)
Definition analyzeContext_resume (e : Engine) (versionAtStart : nat)
    (r : Response) (ok : bool) (tks : list Tick) : Engine :=
  match r with
  | Rejected => updateStatus "Analysis error. Check console for details." e
  | NoAnswer => e
  | Answer d =>
      if negb (analysisVersion e =? versionAtStart)%nat then e
      else applyDecision e d ok tks
  end.





(** Consecutive entries are at least [gap] apart. *)
Fixpoint spaced (gap : Z) (ts : list Z) : bool :=
  match ts with
  | t1 :: ((t2 :: _) as rest) => (t1 + gap <=? t2)%Z && spaced gap rest
  | _ => true
  end.


(** What the director does between the request and the answer of an
    analysis. *)
Inductive Op :=
| DoSelectMode (mode : string)
| DoMusic (m : MusicData) (ok : bool)
| DoSfx (s : SfxData) (tk : Tick)
| DoSfxResume (p : PendingSfx) (reply : SearchReply) (tk : Tick)
| DoStinger (pick : nat) (reply : SearchReply) (tk : Tick)
| DoStopAll.

Definition opStep (e : Engine) (o : Op) : Engine :=
  match o with
  | DoSelectMode mode => fst (selectMode e mode)
  | DoMusic m ok => updateMusicById e m ok
  | DoSfx s tk => playSoundEffectById e s tk
  | DoSfxResume p reply tk => playSoundEffect_resume e p reply tk
  | DoStinger pick reply tk => stingerFire e pick reply tk
  | DoStopAll => stopAllAudio e
  end.

Definition runOps (ops : list Op) (e : Engine) : Engine :=
  fold_left opStep ops e.

Definition isSelectMode (o : Op) : bool :=
  match o with DoSelectMode _ => true | _ => false end.

End Analysis.

(** ** The rate limiter of the server ([checkRateLimit]) *)
Module RateLimit.

Record RateRecord := mkRecord { count : nat; resetTime : Z }.

Definition RATE_LIMIT_WINDOW : Z := 60000.
Definition RATE_LIMIT_MAX : nat := 10.

(** [checkRateLimit(ip)] at the reading [now] of the clock: the map
    afterwards and whether the request is let through. *)
Definition checkRateLimit (rateLimitMap : gmap string RateRecord)
    (ip : string) (now : Z) : gmap string RateRecord * bool :=
  let record :=
    default (mkRecord 0 (now + RATE_LIMIT_WINDOW)) (rateLimitMap !! ip) in
  if (resetTime record <? now)%Z
  then (<[ip := mkRecord 1 (now + RATE_LIMIT_WINDOW)]> rateLimitMap, true)
  else if (RATE_LIMIT_MAX <=? count record)%nat
  then (rateLimitMap, false)
  else (<[ip := mkRecord (S (count record)) (resetTime record)]>
          rateLimitMap, true).

(** The requests of one address arriving at the given times, one after
    the other: the map afterwards and the answers. *)
Fixpoint serve (m : gmap string RateRecord) (ip : string) (times : list Z)
  : gmap string RateRecord * list bool :=
  match times with
  | [] => (m, [])
  | now :: rest =>
      let '(m1, ok) := checkRateLimit m ip now in
      let '(m2, oks) := serve m1 ip rest in
      (m2, ok :: oks)
  end.

(** The first loop of the periodic clean-up: "Remove expired entries". *)
Definition removeExpired (m : gmap string RateRecord) (now : Z)
  : gmap string RateRecord :=
  filter (fun kv => negb (resetTime (snd kv) <? now)%Z = true) m.

End RateLimit.

(** ** Preloading: [preloadSfxForCurrentMode], [runWithConcurrency],
     [getPreloadConcurrency] *)
Module Preload.
Import Js Engine.

Definition preload_bedtime : list string :=
  [ "dog bark"; "cat meow"; "door knock"; "rain"; "wind whoosh";
    "fire crackling"; "owl hoot"; "crickets"; "soft footsteps";
    "page turn"; "blanket rustle"; "wood creak"; "clock tick";
    "distant thunder"; "water drip"; "bird chirp"; "lullaby chime";
    "toy bell"; "piano soft"; "heartbeat soft" ].

Definition preload_dnd : list string :=
  [ "sword clash"; "arrow shot"; "monster roar"; "footsteps"; "door creak";
    "thunder"; "coin jingle"; "spell cast"; "magic whoosh"; "shield block";
    "torch crackle"; "crowd tavern"; "horse gallop"; "gate open";
    "dragon roar"; "bow twang"; "book page turn"; "chain rattle";
    "door slam"; "wind cave" ].

Definition preload_horror : list string :=
  [ "door creak"; "whisper"; "heartbeat"; "wind whoosh"; "ghost boo";
    "witch cackle"; "chain drag"; "footsteps hallway"; "breath heavy";
    "thunder distant"; "scream far"; "floorboard creak"; "owl hoot";
    "metal scrape"; "water drip"; "clock tick"; "radio static"; "crow caw";
    "cat hiss"; "wolf howl" ].

Definition preload_christmas : list string :=
  [ "jingle bells"; "sleigh bells"; "fire crackling"; "children laugh";
    "wind arctic"; "snow footsteps"; "gift wrap"; "door knock";
    "bell chime"; "choir ahh"; "reindeer bells"; "door creak";
    "ice crackle"; "wind whoosh"; "glass clink"; "street christmas";
    "crowd cheer"; "applause"; "laugh"; "santa ho ho" ].

Definition preload_halloween : list string :=
  [ "witch cackle"; "ghost boo"; "wolf howl"; "door creak"; "thunder";
    "owl hoot"; "chain rattle"; "bat flutter"; "cat hiss"; "wind whoosh";
    "zombie groan"; "crow caw"; "footsteps leaves"; "pumpkin squash";
    "monster roar"; "scream far"; "gate creak"; "rain"; "distant bells";
    "cauldron bubble" ].

Definition preload_sing : list string :=
  [ "applause"; "crowd cheer"; "drum kick"; "snare hit"; "metronome click";
    "hi hat"; "clap"; "shaker"; "tambourine"; "airhorn short";
    "bass drop short"; "reverb clap"; "vocal ahh short"; "vocal ohh short";
    "tap tempo click"; "count in"; "guitar strum"; "piano chord";
    "sub drop"; "riser short" ].

Definition preload_auto : list string :=
  [ "dog bark"; "door knock"; "footsteps"; "thunder"; "fire crackling";
    "wind whoosh"; "applause"; "laugh"; "scream"; "metal crash";
    "water splash"; "door slam"; "heartbeat"; "bird chirp"; "cat meow";
    "car horn"; "bell chime"; "crowd murmur"; "coin jingle";
    "keyboard typing" ].

(** [this.genericPreloadSet] *)
Definition genericPreloadSet : list string :=
  [ "dog bark"; "door knock"; "footsteps"; "thunder"; "fire crackling";
    "wind whoosh"; "applause"; "laugh"; "scream"; "metal crash";
    "water splash"; "door slam"; "heartbeat"; "bird chirp"; "cat meow";
    "bell chime"; "coin jingle"; "crow caw"; "owl hoot"; "chain rattle" ].

(** [this.modePreloadSets[mode] || this.modePreloadSets.auto], for the
    modes that the page and the voice commands can select. *)
Definition modePreloadSet (mode : string) : list string :=
  if String.eqb mode "bedtime" then preload_bedtime
  else if String.eqb mode "dnd" then preload_dnd
  else if String.eqb mode "horror" then preload_horror
  else if String.eqb mode "christmas" then preload_christmas
  else if String.eqb mode "halloween" then preload_halloween
  else if String.eqb mode "sing" then preload_sing
  else preload_auto.

(** [[...new Set(l)]]: the first occurrence of every entry, in order. *)
Fixpoint dedupe (seen l : list string) : list string :=
  match l with
  | [] => []
  | x :: l' =>
      if existsb (String.eqb x) seen then dedupe seen l'
      else x :: dedupe (x :: seen) l'
  end.

(** [merged.slice(0, 20)] *)
Definition preloadTarget (mode : string) : list string :=
  take 20 (dedupe [] (modePreloadSet mode ++ genericPreloadSet)).

Definition setPreloadInProgress (b : bool) (e : Engine) : Engine :=
  mkEngine (cfg e) (currentMode e) (currentMusic e) (activeSounds e)
    (sfxCooldowns e) (soundCache e) (activeBuffers e) (recentlyPlayed e)
    (preloadVersion e) b (analysisVersion e) (stingerTimer e) (status e)
    (audioLog e).

(** [preloadSfxForCurrentMode(versionToken)] up to the call of
    [runWithConcurrency]: the queries of the tasks it hands over (none
    when a gate is closed). *)
Definition preloadSfxForCurrentMode_begin (e : Engine)
  : Engine * list string :=
  if (negb (hasKey (freesoundApiKey (cfg e)))
      && negb (hasKey (pixabayApiKey (cfg e))))
     || negb (sfxEnabled (cfg e))
  then (e, [])
  else if preloadInProgress e then (e, [])
  else
    let target := preloadTarget (currentMode e) in
    match target with
    | [] => (e, [])
    | _ => (setPreloadInProgress true e, target)
    end.

(** [getPreloadConcurrency()]: [effectiveType] is what
    [navigator.connection] reports, if anything. *)
Definition getPreloadConcurrency (effectiveType : option string)
    (lowLatencyMode : bool) : nat :=
  let effective :=
    match effectiveType with
    | Some t => if isEmpty t then "4g" else t
    | None => "4g"
    end in
  let base := if lowLatencyMode then 7 else 4 in
  if includes effective "2g" then Nat.max 2 (base - 2)
  else if includes effective "3g" then Nat.max 3 (base - 1)
  else base.

(** The workers of [runWithConcurrency(taskFns, limit)]: the tasks not
    yet taken, the task each runner is waiting for ([None]: the runner has
    returned), and the tasks started so far, in order. *)
Record Pool (T : Type) := mkPool {
  queue : list T;
  runners : list (option T);
  started : list T
}.
Arguments mkPool {T}.
Arguments queue {T}.
Arguments runners {T}.
Arguments started {T}.

(** The call: [Math.min(limit, queue.length)] runners are created, and
    each takes a task at once. *)
Definition runWithConcurrency {T} (taskFns : list T) (limit : nat)
  : Pool T :=
  let n := Nat.min limit (length taskFns) in
  mkPool (drop n taskFns) (map Some (take n taskFns)) (take n taskFns).

(** The task that runner [k] awaits settles: the runner takes the next
    task of the queue, or returns when the queue is empty. *)
Definition settle {T} (p : Pool T) (k : nat) : Pool T :=
  match runners p !! k with
  | Some (Some _) =>
      match queue p with
      | fn :: rest =>
          mkPool rest (<[k := Some fn]> (runners p)) (started p ++ [fn])
      | [] => mkPool [] (<[k := None]> (runners p)) (started p)
      end
  | _ => p
  end.

Definition settleAll {T} (p : Pool T) (ks : list nat) : Pool T :=
  fold_left settle ks p.

Definition inFlight {T} (p : Pool T) : nat :=
  length (filter (fun r => is_Some r) (runners p)).

(** [Promise.all(runners)] is fulfilled. *)
Definition allReturned {T} (p : Pool T) : bool :=
  forallb (fun r => match r with None => true | Some _ => false end)
    (runners p).

End Preload.

(** ** The client of [/analyze]: [analyzeTranscript] *)
Module Api.
Import Js Server.

(** The answer of [fetch(`${backendUrl}/analyze`)]: a status with the
    body parsed as JSON ([None]: [resp.json()] throws), or no answer at
    all (network error, timeout). *)
Inductive BackendReply :=
| Status (code : nat) (body : option Decision)
| Unreachable.

Inductive Outcome :=
| TranscriptRequired
| Decided (d : Decision)
| ClientSide.

(** [analyzeTranscript(payload)] with the cooldown [__backendCooldownUntil]:
    [now] is read before the request and [later] when a 429 is seen.  The
    result is the cooldown afterwards, where the call goes on (thrown
    error, the decision of the backend, or the fallback
    [analyzeTranscriptClientSide]), and whether the backend was asked. *)
Definition analyzeTranscript (backendCooldownUntil : Z)
    (transcript : string) (now : Z) (reply : BackendReply) (later : Z)
  : Z * Outcome * bool :=
  if isEmpty transcript || isEmpty (trim transcript)
  then (backendCooldownUntil, TranscriptRequired, false)
  else if (now <? backendCooldownUntil)%Z
  then (backendCooldownUntil, ClientSide, false)
  else
    match reply with
    | Status code body =>
        if (200 <=? code)%nat && (code <=? 299)%nat
        then match body with
             | Some d => (backendCooldownUntil, Decided d, true)
             | None => (backendCooldownUntil, ClientSide, true)
             end
        else if (code =? 429)%nat
        then ((later + 60000)%Z, ClientSide, true)
        else (backendCooldownUntil, ClientSide, true)
    | Unreachable => (backendCooldownUntil, ClientSide, true)
    end.

(** One call after the other, each with its transcript, its readings of
    the clock and the answer the backend would give. *)
Definition Call : Type := string * Z * BackendReply * Z.

Definition callStep (c : Z) (call : Call) : Z * Outcome * bool :=
  let '(transcript, now, reply, later) := call in
  analyzeTranscript c transcript now reply later.

Definition afterCalls (c : Z) (calls : list Call) : Z :=
  fold_left (fun c call => fst (fst (callStep c call))) calls c.

End Api.

(** * Properties *)

(** ** Loose equality *)
Section LooseEquality.
Import Js Story.

Lemma eqLoose_refl w : eqLoose w w = true.
Proof.
  unfold eqLoose. rewrite String.eqb_refl.
  destruct (isEmpty w || isEmpty w); reflexivity.
Qed.

Lemma eqLoose_sym a b : eqLoose a b = eqLoose b a.
Proof.
  unfold eqLoose.
  rewrite (orb_comm (isEmpty b)), (String.eqb_sym b a).
  destruct (isEmpty a || isEmpty b); [reflexivity|].
  destruct (String.eqb a b); [reflexivity|].
  rewrite (String.eqb_sym (strip (base b))).
  destruct (isEmpty (strip (base a))), (isEmpty (strip (base b)));
    cbn [negb andb];
    destruct (String.eqb (strip (base a)) (strip (base b)));
    destruct (irregularIs a b), (irregularIs b a); reflexivity.
Qed.

(** C10: [eqLoose] is symmetric and reflexive on strings. *)
Theorem eqLoose_symmetric_reflexive :
  (forall a b : string, eqLoose a b = eqLoose b a) /\
  (forall w : string, eqLoose w w = true).
Proof. split; [apply eqLoose_sym | apply eqLoose_refl]. Qed.

End LooseEquality.

(** ** The cursor of the Story Aligner *)
Section Cursor.
Import Js Story.

Lemma skipEmpty_ge rest i : i <= skipEmpty rest i.
Proof.
  revert i. induction rest as [|t rest IH]; intros i; simpl; [lia|].
  destruct (isEmpty t); [|lia]. specialize (IH (S i)). lia.
Qed.

Lemma skipEmpty_passed rest i k :
  i <= k < skipEmpty rest i -> rest !! (k - i) = Some EmptyString.
Proof.
  revert i. induction rest as [|t rest IH]; intros i Hk; simpl in *; [lia|].
  destruct t as [|c t]; simpl in Hk; [|lia].
  destruct (decide (k = i)) as [->|Hne].
  - replace (i - i) with 0 by lia. reflexivity.
  - replace (k - i) with (S (k - S i)) by lia. simpl. apply IH. lia.
Qed.

Lemma skipEmpty_stop rest i t :
  rest !! (skipEmpty rest i - i) = Some t -> isEmpty t = false.
Proof.
  revert i. induction rest as [|u rest IH]; intros i; simpl; [discriminate|].
  destruct (isEmpty u) eqn:Hu.
  - pose proof (skipEmpty_ge rest (S i)).
    replace (skipEmpty rest (S i) - i) with (S (skipEmpty rest (S i) - S i))
      by lia.
    simpl. apply IH.
  - replace (i - i) with 0 by lia. simpl. congruence.
Qed.

Lemma lookup_drop_sub (norm : list string) (i k : nat) :
  i <= k -> drop i norm !! (k - i) = norm !! k.
Proof. intros H. rewrite lookup_drop. f_equal. lia. Qed.

(** What the sequential scan leaves behind: the cursor never steps back,
    and each token it passes is a separator, a stop-word, or loosely
    equal to a word of the batch. *)
Lemma scan_passed norm spoken : forall i p fx i' p' fx',
  scan norm spoken i p fx = (i', p', fx') ->
  i <= i' /\
  forall k, i <= k < i' ->
    exists t, norm !! k = Some t /\
      (skippable t = true \/
       exists w, w ∈ spoken /\ eqLoose t w = true).
Proof.
  induction spoken as [|w ws IH]; intros i p fx i' p' fx' H; simpl in H.
  - inversion H; subst. split; [lia|]. intros k Hk. lia.
  - pose proof (skipEmpty_ge (drop i norm) i) as Hge.
    assert (Hskip : forall k, i <= k < skipEmpty (drop i norm) i ->
              exists t, norm !! k = Some t /\
                (skippable t = true \/
                 exists w0, w0 ∈ w :: ws /\ eqLoose t w0 = true)).
    { intros k Hk. exists EmptyString. split; [|left; reflexivity].
      rewrite <- (lookup_drop_sub norm i k) by lia.
      apply skipEmpty_passed. exact Hk. }
    set (i1 := skipEmpty (drop i norm) i) in *.
    destruct (norm !! i1) as [t|] eqn:Ht.
    + destruct (eqLoose t w) eqn:Heq; [|destruct (isStopWord t) eqn:Hst].
      * apply IH in H. destruct H as [Hle Hall]. split; [lia|].
        intros k Hk. destruct (decide (k < i1)) as [Hlt|Hnlt].
        { apply Hskip. lia. }
        destruct (decide (k = i1)) as [->|Hne].
        { exists t. split; [exact Ht|]. right. exists w.
          split; [apply list_elem_of_here | exact Heq]. }
        destruct (Hall k) as (t' & Ht' & Hor); [lia|].
        exists t'. split; [exact Ht'|].
        destruct Hor as [Hs|(w0 & Hin & Hw0)]; [left; exact Hs|].
        right. exists w0. split; [apply list_elem_of_further; exact Hin | exact Hw0].
      * apply IH in H. destruct H as [Hle Hall]. split; [lia|].
        intros k Hk. destruct (decide (k < i1)) as [Hlt|Hnlt].
        { apply Hskip. lia. }
        destruct (decide (k = i1)) as [->|Hne].
        { exists t. split; [exact Ht|]. left. unfold skippable.
          rewrite Hst. apply orb_true_r. }
        destruct (Hall k) as (t' & Ht' & Hor); [lia|].
        exists t'. split; [exact Ht'|].
        destruct Hor as [Hs|(w0 & Hin & Hw0)]; [left; exact Hs|].
        right. exists w0. split; [apply list_elem_of_further; exact Hin | exact Hw0].
      * apply IH in H. destruct H as [Hle Hall]. split; [lia|].
        intros k Hk. destruct (decide (k < i1)) as [Hlt|Hnlt].
        { apply Hskip. lia. }
        destruct (Hall k) as (t' & Ht' & Hor); [lia|].
        exists t'. split; [exact Ht'|].
        destruct Hor as [Hs|(w0 & Hin & Hw0)]; [left; exact Hs|].
        right. exists w0. split; [apply list_elem_of_further; exact Hin | exact Hw0].
    + inversion H; subst. split; [lia|]. intros k Hk. apply Hskip. lia.
Qed.

Lemma findStart_bound window spoken m : forall n s r,
  findStart window spoken m n s = Some r -> s <= r < s + n.
Proof.
  induction n as [|n IH]; intros s r H; simpl in H; [discriminate|].
  destruct (m <=? runMatched (drop s window) spoken)%nat.
  - inversion H; subst. lia.
  - apply IH in H. lia.
Qed.

Lemma findStart_matched window spoken m : forall n s r,
  findStart window spoken m n s = Some r ->
  m <= runMatched (drop r window) spoken.
Proof.
  induction n as [|n IH]; intros s r H; simpl in H; [discriminate|].
  destruct (m <=? runMatched (drop s window) spoken)%nat eqn:Hm.
  - inversion H; subst. apply Nat.leb_le. exact Hm.
  - eapply IH. exact H.
Qed.

Lemma storyWindow_length st : length (storyWindow st) <= lookahead.
Proof. unfold storyWindow. rewrite length_take. lia. Qed.

Lemma attemptStoryRecovery_bounds st spoken :
  storyIndex st <= attemptStoryRecovery st spoken <= storyIndex st + lookahead.
Proof.
  unfold attemptStoryRecovery.
  destruct (findStart _ _ _ _ _) as [r|] eqn:H; [|lia].
  apply findStart_bound in H. pose proof (storyWindow_length st). lia.
Qed.

Lemma advance_fields st text :
  let st' := fst (advanceStoryWithTranscript st text) in
  storyActive st' = storyActive st /\ storyNorm st' = storyNorm st /\
  storyTokens st' = storyTokens st.
Proof.
  unfold advanceStoryWithTranscript.
  destruct (negb (storyActive st) || isEmpty text); [auto|].
  destruct (spokenWords text) as [|w ws]; [auto|].
  destruct (scan _ _ _ _ _) as [[i p] fx].
  match goal with |- context [if (storyIndex st <? ?x)%nat then _ else _] =>
    destruct (storyIndex st <? x)%nat end; simpl; auto.
Qed.

Lemma advance_index_le st text :
  storyIndex st <= storyIndex (fst (advanceStoryWithTranscript st text)).
Proof.
  unfold advanceStoryWithTranscript.
  destruct (negb (storyActive st) || isEmpty text); [simpl; lia|].
  destruct (spokenWords text) as [|w ws]; [simpl; lia|].
  destruct (scan _ _ _ _ _) as [[i p] fx].
  match goal with |- context [if (storyIndex st <? ?x)%nat then _ else _] =>
    generalize x; intros j; destruct (Nat.ltb_spec (storyIndex st) j) end;
    simpl; lia.
Qed.

(** C1: over every session of transcript fragments, the cursor
    [storyIndex] never decreases from one call of
    [advanceStoryWithTranscript] to the next, and a recovery jump lands
    at or after the cursor (within the lookahead). *)
Theorem storyIndex_monotone :
  (forall st texts,
      nonDecreasingFrom (storyIndex st) (cursorTrace st texts)) /\
  (forall st spoken,
      storyIndex st <= attemptStoryRecovery st spoken
                    <= storyIndex st + lookahead).
Proof.
  split; [|apply attemptStoryRecovery_bounds].
  intros st texts. revert st.
  induction texts as [|t ts IH]; intros st; simpl; [exact I|].
  split; [apply advance_index_le | apply IH].
Qed.

End Cursor.

(** ** Recovery without a matching run *)
Section Recovery.
Import Js Story.

Lemma LooseRun_head toks p :
  LooseRun toks p ->
  forall w ws, p = w :: ws ->
  exists t, t ∈ toks /\ isEmpty t = false /\ eqLoose t w = true.
Proof.
  induction 1 as [toks|t w0 toks ws0 Hne Heq _ _|toks p _ IH|t toks p _ _ IH];
    intros w ws Hp.
  - discriminate.
  - inversion Hp; subst. exists t. split; [apply list_elem_of_here|].
    split; [destruct t; [contradiction|reflexivity] | exact Heq].
  - destruct (IH w ws Hp) as (t & Hin & Ht). exists t.
    split; [apply list_elem_of_further; exact Hin | exact Ht].
  - destruct (IH w ws Hp) as (t' & Hin & Ht). exists t'.
    split; [apply list_elem_of_further; exact Hin | exact Ht].
Qed.

Lemma runMatched_pos toks : forall w ws,
  0 < runMatched toks (w :: ws) ->
  exists t, t ∈ toks /\ isEmpty t = false /\ eqLoose t w = true.
Proof.
  induction toks as [|t toks IH]; intros w ws H; simpl in H; [lia|].
  destruct (isEmpty t) eqn:He.
  - destruct (IH w ws H) as (t' & Hin & Ht'). exists t'.
    split; [apply list_elem_of_further; exact Hin | exact Ht'].
  - destruct (eqLoose t w) eqn:Heq.
    + exists t. split; [apply list_elem_of_here | split; [exact He | exact Heq]].
    + destruct (isSmallWord t); [|lia].
      destruct (IH w ws H) as (t' & Hin & Ht'). exists t'.
      split; [apply list_elem_of_further; exact Hin | exact Ht'].
Qed.

Lemma elem_of_drop_inv (l : list string) (s : nat) t :
  t ∈ drop s l -> exists k, drop k l = t :: drop (S k) l.
Proof.
  intros Hin. apply list_elem_of_lookup in Hin. destruct Hin as [j Hj].
  rewrite lookup_drop in Hj. exists (s + j).
  apply drop_S. exact Hj.
Qed.

Lemma noRun_runMatched st w ws :
  NoLoosePrefixRun st (w :: ws) ->
  forall s, runMatched (drop s (storyWindow st)) (w :: ws) = 0.
Proof.
  intros Hno s.
  destruct (runMatched (drop s (storyWindow st)) (w :: ws)) as [|m] eqn:Hm;
    [reflexivity|exfalso].
  destruct (runMatched_pos (drop s (storyWindow st)) w ws) as (t & Hin & He & Heq);
    [lia|].
  destruct (elem_of_drop_inv _ _ _ Hin) as [k Hk].
  apply (Hno k [w]); [discriminate | | ].
  - exists ws. reflexivity.
  - rewrite Hk. apply LooseRun_match; [|exact Heq|apply LooseRun_nil].
    intros ->. discriminate.
Qed.

Lemma findStart_none window spoken m :
  0 < m -> (forall s, runMatched (drop s window) spoken = 0) ->
  forall n s, findStart window spoken m n s = None.
Proof.
  intros Hm H0. induction n as [|n IH]; intros s; simpl; [reflexivity|].
  rewrite H0. destruct (Nat.leb_spec m 0); [lia|]. apply IH.
Qed.

Lemma recovery_stays st spoken :
  3 <= length spoken -> NoLoosePrefixRun st spoken ->
  attemptStoryRecovery st spoken = storyIndex st.
Proof.
  intros Hlen Hno. unfold attemptStoryRecovery.
  destruct spoken as [|w ws]; [simpl in Hlen; lia|].
  rewrite findStart_none; [reflexivity | simpl; lia |].
  apply noRun_runMatched. exact Hno.
Qed.

(** A test that computes: no token of the window is loosely equal to the
    first word of the batch. *)
Lemma noLoosePrefixRun_check st w ws :
  forallb (fun t => isEmpty t || negb (eqLoose t w)) (storyWindow st) = true ->
  NoLoosePrefixRun st (w :: ws).
Proof.
  intros Hall start p Hne [q Hq] Hrun.
  destruct p as [|w' p']; [contradiction|].
  simpl in Hq. inversion Hq; subst w'.
  destruct (LooseRun_head _ _ Hrun w p' eq_refl) as (t & Hin & He & Heq).
  rewrite forallb_forall in Hall.
  assert (Hin' : In t (storyWindow st)).
  { apply list_elem_of_In. apply list_elem_of_lookup in Hin.
    destruct Hin as [j Hj]. rewrite lookup_drop in Hj.
    apply list_elem_of_lookup. eauto. }
  specialize (Hall t Hin'). rewrite He, Heq in Hall. discriminate.
Qed.

Lemma spokenWords_nonempty text :
  spokenWords text <> [] -> isEmpty text = false.
Proof. destruct text; [intros H; exfalso; apply H; reflexivity | reflexivity]. Qed.

(** C3, as the spec states it, fails: on the narrative "the cat sat" the
    batch "x y z" matches no token at all, yet the cursor moves from 0
    to 2 (the stop-word "the" and the separator after it are passed). *)
Lemma cursor_moves_without_any_match :
  storyActive (opened "the cat sat") = true /\
  3 <= length (spokenWords "x y z") /\
  NoLoosePrefixRun (opened "the cat sat") (spokenWords "x y z") /\
  forallb (fun t => forallb (fun w => isEmpty t || negb (eqLoose t w))
                      (spokenWords "x y z"))
    (storyNorm (opened "the cat sat")) = true /\
  storyIndex (opened "the cat sat") = 0 /\
  storyIndex (fst (advanceStoryWithTranscript (opened "the cat sat") "x y z"))
    = 2.
Proof.
  split; [reflexivity|]. split; [vm_compute; lia|].
  split; [apply noLoosePrefixRun_check; vm_compute; reflexivity|].
  split; [vm_compute; reflexivity|]. split; vm_compute; reflexivity.
Qed.

(** C3, amended: for a batch of at least 3 words of which no run of the
    next 40 tokens loosely matches a prefix, recovery does not move the
    cursor; the cursor after the call is where the sequential scan
    stopped, and every token it passed is a separator, a stop-word, or
    loosely equal to a word of the batch. *)
Theorem no_false_recovery st text :
  storyActive st = true ->
  3 <= length (spokenWords text) ->
  NoLoosePrefixRun st (spokenWords text) ->
  attemptStoryRecovery st (spokenWords text) = storyIndex st /\
  storyIndex (fst (advanceStoryWithTranscript st text))
    = fst (fst (scan (storyNorm st) (spokenWords text) (storyIndex st) 0 [])) /\
  forall k,
    storyIndex st <= k < storyIndex (fst (advanceStoryWithTranscript st text)) ->
    exists t, storyNorm st !! k = Some t /\
      (skippable t = true \/
       exists w, w ∈ spokenWords text /\ eqLoose t w = true).
Proof.
  intros Hact Hlen Hno.
  pose proof (recovery_stays st _ Hlen Hno) as Hrec.
  split; [exact Hrec|].
  assert (Hidx : storyIndex (fst (advanceStoryWithTranscript st text))
    = fst (fst (scan (storyNorm st) (spokenWords text) (storyIndex st) 0 []))).
  { unfold advanceStoryWithTranscript. rewrite Hact.
    rewrite (spokenWords_nonempty text)
      by (intros E; rewrite E in Hlen; simpl in Hlen; lia).
    simpl negb. simpl orb. cbv iota.
    destruct (spokenWords text) as [|w ws] eqn:Hsp; [simpl in Hlen; lia|].
    destruct (scan (storyNorm st) (w :: ws) (storyIndex st) 0 [])
      as [[i p] fx] eqn:Hscan.
    pose proof (scan_passed _ _ _ _ _ _ _ _ Hscan) as [Hle _].
    match goal with |- context [attemptStoryRecovery ?s1 _] =>
      replace (attemptStoryRecovery s1 (w :: ws))
        with (attemptStoryRecovery st (w :: ws)) by reflexivity end.
    rewrite Hrec. rewrite Nat.ltb_irrefl.
    replace (if ((p =? 0)%nat && (3 <=? length (w :: ws))%nat) then i else i)
      with i by (destruct ((p =? 0)%nat && (3 <=? length (w :: ws))%nat); reflexivity).
    destruct (Nat.ltb_spec (storyIndex st) i); simpl; lia. }
  split; [exact Hidx|].
  intros k Hk. rewrite Hidx in Hk.
  destruct (scan (storyNorm st) (spokenWords text) (storyIndex st) 0 [])
    as [[i p] fx] eqn:Hscan.
  pose proof (scan_passed _ _ _ _ _ _ _ _ Hscan) as [_ Hall].
  apply Hall. exact Hk.
Qed.

Lemma no_false_recovery_witness :
  storyActive (opened "a dog ran home") = true /\
  3 <= length (spokenWords "cats purr loudly") /\
  NoLoosePrefixRun (opened "a dog ran home") (spokenWords "cats purr loudly") /\
  attemptStoryRecovery (opened "a dog ran home")
    (spokenWords "cats purr loudly")
    = storyIndex (opened "a dog ran home").
Proof.
  assert (H1 : storyActive (opened "a dog ran home") = true) by reflexivity.
  assert (H2 : 3 <= length (spokenWords "cats purr loudly"))
    by (vm_compute; lia).
  assert (H3 : NoLoosePrefixRun (opened "a dog ran home")
                 (spokenWords "cats purr loudly"))
    by (apply noLoosePrefixRun_check; vm_compute; reflexivity).
  split; [exact H1|]. split; [exact H2|]. split; [exact H3|].
  exact (proj1 (no_false_recovery _ _ H1 H2 H3)).
Defined.

End Recovery.

(** ** Catalog lookup before play *)
Section CatalogLookup.
Import Js Engine Server Client.



Lemma playedNames_emit ev e :
  playedNames (emit ev e)
  = playedNames e ++ match ev with
                     | HowlPlay _ name _ _ _ => [name]
                     | _ => []
                     end.
Proof.
  unfold playedNames, emit. simpl. rewrite omap_app. simpl.
  destruct ev; reflexivity.
Qed.







End CatalogLookup.

(** ** The cooldown ledger *)
Section Cooldown.
Import Js Engine.

Lemma plays_emit ev e :
  plays (emit ev e) = plays e + (if isPlay ev then 1 else 0).
Proof.
  unfold plays, emit. cbn [audioLog]. rewrite filter_app, length_app.
  f_equal. destruct ev; reflexivity.
Qed.

Lemma searchAudio_plays e q reply :
  plays (fst (searchAudio e q reply)) = plays e.
Proof.
  unfold searchAudio.
  destruct (if savedSoundsEnabled (cfg e) then truthy (local_hit reply)
            else None); [reflexivity|].
  destruct (hasKey (freesoundApiKey (cfg e))); [|reflexivity].
  unfold searchFreesound.
  destruct (soundCache e !! cacheKey (simplifySfxQuery q)); [reflexivity|].
  destruct (remote reply) as [url| |]; [|reflexivity|reflexivity].
  destruct (isEmpty url); reflexivity.
Qed.



(** The legacy path, when the second request is made after the first
    has run to its end: [playSoundEffect] refuses it at its cooldown
    test.  (A second request made while the first is still suspended at
    its search finds no cooldown yet.) *)
Lemma playSoundEffect_refused_after_play e p reply tk req now :
  plays (playSoundEffect_resume e p reply tk) = S (plays e) ->
  getSfxBucket (req_query req) = pend_bucket p ->
  (now < t_set tk + sfxCooldownMs (cfg e))%Z ->
  snd (playSoundEffect_begin (playSoundEffect_resume e p reply tk) req now)
  = None.
Proof.
  intros Hplay Hb Hwin. unfold playSoundEffect_begin.
  destruct (negb (sfxEnabled (cfg (playSoundEffect_resume e p reply tk))));
    [reflexivity|].
  destruct (_ <=? _)%nat; [reflexivity|].
  assert (Hcd : sfxCooldowns (playSoundEffect_resume e p reply tk)
                  !! pend_bucket p
                = Some (t_set tk + sfxCooldownMs (cfg e))%Z).
  { revert Hplay. unfold playSoundEffect_resume.
    pose proof (searchAudio_plays e (req_query (pend_request p)) reply) as Hs.
    destruct (searchAudio e (req_query (pend_request p)) reply) as [e1 found].
    simpl in Hs. destruct (truthy found) as [url|]; [|lia].
    unfold playAudioSfx. destruct (isEmpty url); [lia|].
    destruct (howl_ok tk).
    - intros _. unfold playSFXBuffer.
      cbn [sfxCooldowns setSfxCooldowns]. apply lookup_insert_eq.
    - intros H. change (plays e1 = S (plays e)) in H. lia. }
  rewrite Hb, Hcd. simpl.
  destruct (Z.ltb_spec now (t_set tk + sfxCooldownMs (cfg e)));
    [reflexivity|lia].
Qed.


End Cooldown.

(** ** Music decisions and the number of active sounds *)
Section Director.
Import Js Engine.

(** The guard "same music already playing" never holds: the object in
    the music slot has no [dataset]. *)
Lemma sameMusicPlaying_false e id : sameMusicPlaying e id = false.
Proof. unfold sameMusicPlaying. destruct (currentMusic e); reflexivity. Qed.

(** With music enabled, every decision for a catalog entry with a
    source replaces the track: no clock is read and the track playing is
    not looked at. *)
Lemma updateMusicById_replaces e md s :
  musicEnabled (cfg e) = true ->
  findSound e (music_id md) = Some s ->
  isEmpty (soundUrl e s) = false ->
  option_map handle_name (currentMusic (updateMusicById e md true))
  = Some (sound_id s) /\
  plays (updateMusicById e md true) = S (plays e).
Proof.
  intros Hen Hf Hu. unfold updateMusicById.
  rewrite Hen, Hf, sameMusicPlaying_false, andb_false_r. simpl.
  unfold playAudioMusic. rewrite Hu. unfold playMusicElement, scheduleNextStinger.
  destruct (currentMusic e) as [old|];
    cbn [cfg setCurrentMusic emit];
    destruct (negb (sfxEnabled (cfg e)) || negb (predictionEnabled (cfg e)));
    (split; [reflexivity|]);
    unfold plays; cbn [audioLog setStingerTimer setCurrentMusic emit];
    rewrite ?filter_app, ?length_app; simpl; lia.
Qed.

(** C2 (the code at the failing input): the decisions calm, peaceful,
    epic, applied one after the other by [updateMusicById] with no
    force-change flag, each replace the track; the change to the epic
    track is not held back, whatever the time since the last change
    ([updateMusicById] reads no clock and keeps no time of the last
    change). *)
Theorem music_change_not_held_back :
  option_map handle_name (currentMusic Scenario.after_calm)
  = Some "calm_theme" /\
  option_map handle_name (currentMusic Scenario.after_peaceful)
  = Some "peaceful_theme" /\
  option_map handle_name (currentMusic Scenario.after_epic)
  = Some "epic_theme" /\
  plays Scenario.after_epic = 3.
Proof. repeat split; vm_compute; reflexivity. Qed.

Lemma size_insert_le (m : gmap nat ActiveSound) k v :
  size (<[k := v]> m) <= S (size m).
Proof. rewrite map_size_insert. destruct (m !! k); simpl; lia. Qed.

(** The path of the backend decisions keeps the bound: its size test and
    its insertion run without a suspension between them. *)
Lemma playSoundEffectById_bounded e sd tk :
  size (activeSounds e) <= maxSimultaneousSounds (cfg e) ->
  size (activeSounds (playSoundEffectById e sd tk))
  <= maxSimultaneousSounds (cfg e).
Proof.
  intros Hb. unfold playSoundEffectById.
  destruct (negb (sfxEnabled (cfg e))); [exact Hb|].
  destruct (Nat.leb_spec (maxSimultaneousSounds (cfg e)) (size (activeSounds e)))
    as [Hge|Hlt]; [exact Hb|].
  destruct (findSound e (sfx_id sd)) as [s|]; [|exact Hb].
  destruct (t_check tk <? _)%Z; [exact Hb|].
  unfold playAudioSfx.
  destruct (isEmpty (soundUrl e s)); [exact Hb|].
  destruct (howl_ok tk); [|exact Hb].
  unfold playSFXBuffer. cbn [activeSounds setSfxCooldowns setActiveSounds emit].
  pose proof (size_insert_le (activeSounds e) (fresh tk)
                (mkActive (sound_id s)
                   (clamp01 (clamp01 (orDefault (sfx_volume sd) (7 # 10)
                                      * sfxLevel (cfg e))%Q))
                   (t_start tk))).
  lia.
Qed.

(** C6 (the code at the failing inputs): with [maxSimultaneousSounds] 3,
    four story cues heard in one fragment all pass the size test of
    [playSoundEffect] before any of them starts, and four sound effects
    are active; and with three sound effects active, where
    [playSoundEffectById] refuses a fourth, the stinger timer starts a
    fourth through [playAudio], which has no size test. *)
Theorem active_sfx_exceed_maximum :
  maxSimultaneousSounds (cfg Scenario.fresh_engine) = 3 /\
  length (snd Scenario.cue_calls) = 4 /\
  size (activeSounds Scenario.after_cues) = 4 /\
  size (activeSounds Scenario.three_active) = 3 /\
  stingerTimer Scenario.three_active = true /\
  size (activeSounds Scenario.fourth_refused) = 3 /\
  size (activeSounds Scenario.after_stinger) = 4.
Proof. repeat split; vm_compute; reflexivity. Qed.

End Director.

(** ** The Cue Extractor *)
Section Extractor.
Import Js Cue Engine.







(** C8, as the spec states it, fails: on "a dog bark" the extractor
    calls [playSoundEffect]; before it returns the status line says that
    Freesound is being searched; when the search answers, a sound plays,
    enters [activeSounds] and starts the cooldown of its bucket; and the
    same fragment, on the engine so changed, is refused by the cooldown
    inside that call. *)
Lemma extractor_starts_playback :
  snd (checkInstantKeywords Scenario.fresh_engine "a dog bark" 1000)
  = Some (mkPending (mkRequest "dog bark" 10 (Some (7 # 10))) "dog bark") /\
  status (checkInstantKeywords_returned Scenario.fresh_engine "a dog bark"
            1000 None)
  = "Searching Freesound for: dog bark..." /\
  size (activeSounds Scenario.after_bark) = 1 /\
  plays Scenario.after_bark = 1 /\
  sfxCooldowns Scenario.after_bark !! "dog bark" = Some 4900%Z /\
  sfxCooldowns Scenario.fresh_engine !! "dog bark" = None /\
  snd (checkInstantKeywords Scenario.after_bark "a dog bark" 2000) = None.
Proof. repeat split; vm_compute; reflexivity. Qed.

(** The gates of the extractor write nothing, and say when a request
    goes on to the search. *)
Lemma checkInstantKeywords_gates e text now :
  fst (checkInstantKeywords e text now) = e /\
  match snd (checkInstantKeywords e text now) with
  | Some p =>
      exists kw c,
        firstKeyword text = Some (kw, c) /\
        p = mkPending (mkRequest (query c) 10 (Some (volume c)))
              (getSfxBucket (query c)) /\
        hasKey (freesoundApiKey (cfg e)) || hasKey (pixabayApiKey (cfg e))
        = true /\
        isEmpty text = false /\
        sfxEnabled (cfg e) = true /\
        size (activeSounds e) < maxSimultaneousSounds (cfg e) /\
        (default 0 (sfxCooldowns e !! getSfxBucket (query c)) <= now)%Z
  | None =>
      hasKey (freesoundApiKey (cfg e)) || hasKey (pixabayApiKey (cfg e))
      = false \/
      isEmpty text = true \/
      sfxEnabled (cfg e) = false \/
      firstKeyword text = None \/
      maxSimultaneousSounds (cfg e) <= size (activeSounds e) \/
      exists kw c,
        firstKeyword text = Some (kw, c) /\
        (now < default 0 (sfxCooldowns e !! getSfxBucket (query c)))%Z
  end.
Proof.
  unfold checkInstantKeywords.
  destruct (hasKey (freesoundApiKey (cfg e)) || hasKey (pixabayApiKey (cfg e)))
    eqn:Hkeys.
  2:{ apply orb_false_elim in Hkeys. destruct Hkeys as [-> ->]. simpl.
      split; [reflexivity|]. left. reflexivity. }
  replace (negb (hasKey (freesoundApiKey (cfg e)))
           && negb (hasKey (pixabayApiKey (cfg e)))) with false
    by (rewrite <- negb_orb, Hkeys; reflexivity).
  destruct (isEmpty text) eqn:Ht; simpl.
  { split; [reflexivity|]. right. left. reflexivity. }
  destruct (sfxEnabled (cfg e)) eqn:Hs; simpl.
  2:{ split; [reflexivity|]. do 2 right. left. reflexivity. }
  destruct (firstKeyword text) as [[kw c]|] eqn:Hk.
  2:{ split; [reflexivity|]. do 3 right. left. reflexivity. }
  unfold playSoundEffect_begin. rewrite Hs. simpl.
  destruct (Nat.leb_spec (maxSimultaneousSounds (cfg e))
              (size (activeSounds e))) as [Hge|Hlt].
  { split; [reflexivity|]. do 4 right. left. exact Hge. }
  destruct (Z.ltb_spec now
              (default 0%Z (sfxCooldowns e !! getSfxBucket (query c))))
    as [Hcool|Hfree]; simpl.
  { split; [reflexivity|]. do 5 right. exists kw, c.
    split; [reflexivity|exact Hcool]. }
  split; [reflexivity|]. exists kw, c.
  repeat split; [exact Hlt|exact Hfree].
Qed.

(** The synchronous start of a search writes the URL cache or the
    status line, and nothing else. *)
Lemma searchAudio_begin_frame e q local :
  playback (searchAudio_begin e q local) = playback e /\
  beyondCaches (searchAudio_begin e q local) = beyondCaches e /\
  activeBuffers (searchAudio_begin e q local) = activeBuffers e /\
  recentlyPlayed (searchAudio_begin e q local) = recentlyPlayed e.
Proof.
  unfold searchAudio_begin.
  destruct (if savedSoundsEnabled (cfg e) then truthy local else None);
    [repeat split|].
  destruct (hasKey (pixabayApiKey (cfg e))); [repeat split|].
  destruct (hasKey (freesoundApiKey (cfg e))); [|repeat split].
  destruct (soundCache e !! cacheKey (simplifySfxQuery q)); repeat split.
Qed.

(** The search that answers with nothing handled in between finds the
    engine as its own start left it: taking the search as one step at the
    answer, as [playSoundEffect_resume] does, gives the same engine. *)
Lemma searchAudio_after_begin e q reply :
  searchAudio (searchAudio_begin e q (local_hit reply)) q reply
  = searchAudio e q reply.
Proof.
  unfold searchAudio_begin, searchAudio.
  destruct (if savedSoundsEnabled (cfg e) then truthy (local_hit reply)
            else None) as [url|] eqn:Hl.
  - cbn [cfg setSoundCache]. rewrite Hl.
    cbn [soundCache setSoundCache]. rewrite insert_insert_eq. reflexivity.
  - destruct (hasKey (pixabayApiKey (cfg e))); [rewrite Hl; reflexivity|].
    destruct (hasKey (freesoundApiKey (cfg e))) eqn:Hk;
      [|rewrite Hl, Hk; reflexivity].
    destruct (soundCache e !! cacheKey (simplifySfxQuery q)) as [u|] eqn:Hc;
      [rewrite Hl, Hk; reflexivity|].
    cbn [cfg updateStatus]. rewrite Hl, Hk.
    unfold searchFreesound. cbn [soundCache updateStatus]. rewrite Hc.
    destruct (remote reply) as [u| |]; reflexivity.
Qed.

Lemma playSoundEffect_resume_after_begin e p reply tk :
  playSoundEffect_resume
    (searchAudio_begin e (req_query (pend_request p)) (local_hit reply))
    p reply tk
  = playSoundEffect_resume e p reply tk.
Proof.
  unfold playSoundEffect_resume. rewrite searchAudio_after_begin.
  destruct (searchAudio_begin_frame e (req_query (pend_request p))
              (local_hit reply)) as (_ & Hb & _).
  assert (Hc : cfg (searchAudio_begin e (req_query (pend_request p))
                      (local_hit reply)) = cfg e)
    by (unfold beyondCaches in Hb; congruence).
  rewrite Hc. reflexivity.
Qed.

(** C8, amended: [checkInstantKeywords] returns no candidate; it hands
    at most one request per call to [playSoundEffect] (the first keyword
    of the table found in the fragment, with priority 10).  That call runs
    inside the extractor until the search is suspended: when the
    extractor returns, the engine is as the synchronous start of the
    search left it, that is, nothing is written but the URL cache or the
    status line: no playback has started, and the mode, the music slot,
    the active sounds, the cooldowns, the audio events, the epochs, the
    decoded buffers and the recent URLs are as before.  The gates are inside: a request is in
    flight exactly when an audio key is set, the fragment is not empty,
    sound effects are enabled, a keyword is found, fewer than
    [maxSimultaneousSounds] sounds are active and the bucket of the query
    is not cooling down. *)
Theorem extractor_dispatches_at_most_one e text now local :
  playback (checkInstantKeywords_returned e text now local) = playback e /\
  beyondCaches (checkInstantKeywords_returned e text now local)
  = beyondCaches e /\
  activeBuffers (checkInstantKeywords_returned e text now local)
  = activeBuffers e /\
  recentlyPlayed (checkInstantKeywords_returned e text now local)
  = recentlyPlayed e /\
  match snd (checkInstantKeywords e text now) with
  | Some p =>
      exists kw c,
        firstKeyword text = Some (kw, c) /\
        p = mkPending (mkRequest (query c) 10 (Some (volume c)))
              (getSfxBucket (query c)) /\
        checkInstantKeywords_returned e text now local
        = searchAudio_begin e (query c) local /\
        hasKey (freesoundApiKey (cfg e)) || hasKey (pixabayApiKey (cfg e))
        = true /\
        isEmpty text = false /\
        sfxEnabled (cfg e) = true /\
        size (activeSounds e) < maxSimultaneousSounds (cfg e) /\
        (default 0 (sfxCooldowns e !! getSfxBucket (query c)) <= now)%Z
  | None =>
      checkInstantKeywords_returned e text now local = e /\
      (hasKey (freesoundApiKey (cfg e)) || hasKey (pixabayApiKey (cfg e))
       = false \/
       isEmpty text = true \/
       sfxEnabled (cfg e) = false \/
       firstKeyword text = None \/
       maxSimultaneousSounds (cfg e) <= size (activeSounds e) \/
       exists kw c,
         firstKeyword text = Some (kw, c) /\
         (now < default 0 (sfxCooldowns e !! getSfxBucket (query c)))%Z)
  end.
Proof.
  destruct (checkInstantKeywords_gates e text now) as [Hfst Hsnd].
  unfold checkInstantKeywords_returned.
  destruct (checkInstantKeywords e text now) as [e1 [p|]];
    cbn [fst snd] in Hfst, Hsnd |- *; subst e1.
  - destruct (searchAudio_begin_frame e (req_query (pend_request p)) local)
      as (H0 & H1 & H2 & H3).
    split; [exact H0|]. split; [exact H1|]. split; [exact H2|].
    split; [exact H3|].
    destruct Hsnd as (kw & c & Hk & Hp & Hkeys & Ht & Hs & Hsize & Hcool).
    exists kw, c. subst p. cbn [req_query pend_request].
    repeat split; assumption.
  - split; [reflexivity|]. split; [reflexivity|]. split; [reflexivity|].
    split; [reflexivity|]. split; [reflexivity|exact Hsnd].
Qed.

End Extractor.

(** ** Preload tasks and the preload epoch *)
Section PreloadEpoch.
Import Js Engine.

Lemma searchAudio_playback e q reply :
  playback (fst (searchAudio e q reply)) = playback e.
Proof.
  unfold searchAudio.
  destruct (if savedSoundsEnabled (cfg e) then truthy (local_hit reply)
            else None); [reflexivity|].
  destruct (hasKey (freesoundApiKey (cfg e))); [|reflexivity].
  unfold searchFreesound.
  destruct (soundCache e !! cacheKey (simplifySfxQuery q)); [reflexivity|].
  destruct (remote reply) as [url| |]; [|reflexivity|reflexivity].
  destruct (isEmpty url); reflexivity.
Qed.

Lemma searchAudio_beyondCaches e q reply :
  beyondCaches (fst (searchAudio e q reply)) = beyondCaches e.
Proof.
  unfold searchAudio.
  destruct (if savedSoundsEnabled (cfg e) then truthy (local_hit reply)
            else None); [reflexivity|].
  destruct (hasKey (freesoundApiKey (cfg e))); [|reflexivity].
  unfold searchFreesound.
  destruct (soundCache e !! cacheKey (simplifySfxQuery q)); [reflexivity|].
  destruct (remote reply) as [url| |]; [|reflexivity|reflexivity].
  destruct (isEmpty url); reflexivity.
Qed.

(** A step of a preload task writes nothing but caches and status. *)
Lemma taskStep_beyondCaches token e t r :
  beyondCaches (fst (taskStep token e t r)) = beyondCaches e.
Proof.
  destruct t as [q|q|url|url|url|]; destruct r as [|reply|ok];
    try reflexivity; simpl.
  - destruct (negb (token =? preloadVersion e)%nat); [reflexivity|].
    destruct (fullyReady e q); reflexivity.
  - pose proof (searchAudio_beyondCaches e q reply) as H.
    destruct (searchAudio e q reply) as [e1 found]. simpl in H.
    destruct (truthy found) as [url|]; [|exact H].
    destruct (bool_decide (url ∈ activeBuffers e1)); exact H.
  - destruct ok; reflexivity.
Qed.

(** A step of a preload task changes neither the music slot, nor the
    active sounds, nor the audio events, nor the cooldowns. *)
Lemma taskStep_playback token e t r :
  playback (fst (taskStep token e t r)) = playback e.
Proof.
  destruct t as [q|q|url|url|url|]; destruct r as [|reply|ok];
    try reflexivity; simpl.
  - destruct (negb (token =? preloadVersion e)%nat); [reflexivity|].
    destruct (fullyReady e q); reflexivity.
  - pose proof (searchAudio_playback e q reply) as H.
    destruct (searchAudio e q reply) as [e1 found]. simpl in H.
    destruct (truthy found) as [url|]; [|exact H].
    destruct (bool_decide (url ∈ activeBuffers e1)); exact H.
  - destruct ok; reflexivity.
Qed.

(** A task whose token is behind the epoch does nothing when a worker
    takes it, and stays done. *)
Lemma taskStep_stale token e q t r :
  token < preloadVersion e ->
  t = Queued q \/ t = Finished ->
  fst (taskStep token e t r) = e /\
  (snd (taskStep token e t r) = Queued q \/
   snd (taskStep token e t r) = Finished).
Proof.
  intros Hlt [-> | ->]; destruct r; simpl; auto.
  destruct (Nat.eqb_spec token (preloadVersion e)); [lia|]. simpl. auto.
Qed.

Lemma selectMode_version e mode :
  preloadVersion (fst (selectMode e mode)) = S (preloadVersion e).
Proof. reflexivity. Qed.

Lemma selectMode_playback e1 e2 mode :
  playback e1 = playback e2 ->
  playback (fst (selectMode e1 mode)) = playback (fst (selectMode e2 mode)).
Proof.
  unfold playback. intros H. inversion H as [[Hm Ha Hl Hc]].
  cbn. rewrite Hl, Hc. reflexivity.
Qed.

Lemma stale_run token q : forall evs e t t2,
  token < preloadVersion e ->
  t = Queued q \/ t = Finished ->
  fst (runEvents token evs (e, t))
  = fst (runEvents token (withoutTask evs) (e, t2)).
Proof.
  induction evs as [|ev evs IH]; intros e t t2 Hlt Ht; [reflexivity|].
  destruct ev as [mode| |r].
  - change (fst (runEvents token evs (fst (selectMode e mode), t))
            = fst (runEvents token (withoutTask evs)
                     (fst (selectMode e mode), t2))).
    apply IH; [rewrite selectMode_version; lia | exact Ht].
  - change (fst (runEvents token evs
                   (setPreloadVersion (S (preloadVersion e)) e, t))
            = fst (runEvents token (withoutTask evs)
                     (setPreloadVersion (S (preloadVersion e)) e, t2))).
    apply IH; [simpl; lia | exact Ht].
  - change (fst (runEvents token evs (taskStep token e t r))
            = fst (runEvents token (withoutTask evs) (e, t2))).
    destruct (taskStep_stale token e q t r Hlt Ht) as [He Ht'].
    destruct (taskStep token e t r) as [e' t']. simpl in He, Ht'. subst e'.
    apply IH; [exact Hlt | exact Ht'].
Qed.

Lemma playback_run token : forall evs e1 e2 t1 t2,
  playback e1 = playback e2 ->
  playback (fst (runEvents token evs (e1, t1)))
  = playback (fst (runEvents token (withoutTask evs) (e2, t2))).
Proof.
  induction evs as [|ev evs IH]; intros e1 e2 t1 t2 H; [exact H|].
  destruct ev as [mode| |r].
  - change (playback (fst (runEvents token evs (fst (selectMode e1 mode), t1)))
            = playback (fst (runEvents token (withoutTask evs)
                               (fst (selectMode e2 mode), t2)))).
    apply IH. apply selectMode_playback. exact H.
  - change (playback (fst (runEvents token evs
                   (setPreloadVersion (S (preloadVersion e1)) e1, t1)))
            = playback (fst (runEvents token (withoutTask evs)
                     (setPreloadVersion (S (preloadVersion e2)) e2, t2)))).
    apply IH. exact H.
  - change (playback (fst (runEvents token evs (taskStep token e1 t1 r)))
            = playback (fst (runEvents token (withoutTask evs) (e2, t2)))).
    pose proof (taskStep_playback token e1 t1 r) as Hs.
    destruct (taskStep token e1 t1 r) as [e' t']. simpl in Hs.
    apply IH. rewrite Hs. exact H.
Qed.

(** C5: a preload task submitted under the current epoch and not yet
    taken by a worker when the epoch is bumped (by [selectMode], or by
    the start of listening) leaves the engine exactly as the bumps alone
    leave it, however its steps are interleaved with later bumps; and in
    every interleaving, also for a task overtaken by a bump while it is
    suspended, the music slot, the active sounds, the audio events and
    the cooldowns are what they are without the steps of the task: a
    step of a task writes at most the URL cache, the buffer cache, the
    list of recent URLs and the status line. *)
Theorem stale_preload_task_is_inert :
  (forall e q mode evs,
      fst (runEvents (preloadVersion e) (ModeChange mode :: evs)
             (e, Queued q))
      = fst (runEvents (preloadVersion e)
               (withoutTask (ModeChange mode :: evs)) (e, Queued q))) /\
  (forall e q evs,
      fst (runEvents (preloadVersion e) (ListeningStarted :: evs)
             (e, Queued q))
      = fst (runEvents (preloadVersion e)
               (withoutTask (ListeningStarted :: evs)) (e, Queued q))) /\
  (forall token e t evs,
      playback (fst (runEvents token evs (e, t)))
      = playback (fst (runEvents token (withoutTask evs) (e, t)))) /\
  (forall token e t r,
      beyondCaches (fst (taskStep token e t r)) = beyondCaches e).
Proof.
  split; [|split; [|split]].
  - intros e q mode evs.
    change (fst (runEvents (preloadVersion e) evs
                   (fst (selectMode e mode), Queued q))
            = fst (runEvents (preloadVersion e) (withoutTask evs)
                     (fst (selectMode e mode), Queued q))).
    apply (stale_run (preloadVersion e) q);
      [rewrite selectMode_version; lia | left; reflexivity].
  - intros e q evs.
    change (fst (runEvents (preloadVersion e) evs
                   (setPreloadVersion (S (preloadVersion e)) e, Queued q))
            = fst (runEvents (preloadVersion e) (withoutTask evs)
                     (setPreloadVersion (S (preloadVersion e)) e, Queued q))).
    apply (stale_run (preloadVersion e) q);
      [simpl; lia | left; reflexivity].
  - intros token e t evs. apply playback_run. reflexivity.
  - exact taskStep_beyondCaches.
Qed.

End PreloadEpoch.

(** ** Tokens and words *)
Section Tokens.
Import Js Story Reading.

Lemma append_cons a s t :
  String.append (String a s) t = String a (String.append s t).
Proof. reflexivity. Qed.

Lemma append_snoc cur c s :
  String.append (snoc cur c) s = String.append cur (String c s).
Proof.
  unfold snoc. induction cur as [|a cur IH]; [reflexivity|].
  rewrite !append_cons, IH. reflexivity.
Qed.

Lemma append_empty_r s : String.append s EmptyString = s.
Proof.
  induction s as [|a s IH]; [reflexivity|]. rewrite append_cons, IH.
  reflexivity.
Qed.

Lemma spell_flush cur rest :
  spell (flush cur rest) = String.append cur (spell rest).
Proof. unfold flush. destruct cur; reflexivity. Qed.

Lemma tokenizeFrom_spell s : forall mode cur,
  spell (tokenizeFrom mode cur s) = String.append cur s.
Proof.
  induction s as [|c s IH]; intros mode cur; simpl.
  - rewrite spell_flush. reflexivity.
  - destruct mode.
    + destruct (isTokenChar c).
      * rewrite IH, append_snoc. reflexivity.
      * rewrite spell_flush, IH. reflexivity.
    + destruct (isSpace c).
      * rewrite IH, append_snoc. reflexivity.
      * rewrite spell_flush, IH. reflexivity.
    + destruct (isTokenChar c).
      * rewrite spell_flush, IH. reflexivity.
      * rewrite IH, append_snoc. reflexivity.
Qed.

Lemma flush_nonempty cur rest :
  Forall (fun t => isEmpty t = false) rest ->
  Forall (fun t => isEmpty t = false) (flush cur rest).
Proof.
  intros H. unfold flush. destruct (isEmpty cur) eqn:E; [exact H|].
  constructor; assumption.
Qed.

Lemma tokenizeFrom_nonempty s : forall mode cur,
  Forall (fun t => isEmpty t = false) (tokenizeFrom mode cur s).
Proof.
  induction s as [|c s IH]; intros mode cur; simpl.
  - apply flush_nonempty. constructor.
  - destruct mode.
    + destruct (isTokenChar c); [apply IH | apply flush_nonempty, IH].
    + destruct (isSpace c); [apply IH | apply flush_nonempty, IH].
    + destruct (isTokenChar c); [apply flush_nonempty, IH | apply IH].
Qed.

(** X1: the tokens of a narrative spell the narrative back, character for
    character, and none of them is empty. *)
Theorem tokenizeStory_round_trip text :
  spell (tokenizeStory text) = text /\
  Forall (fun t => isEmpty t = false) (tokenizeStory text).
Proof.
  split.
  - unfold tokenizeStory. rewrite tokenizeFrom_spell. reflexivity.
  - apply tokenizeFrom_nonempty.
Qed.


Lemma allChars_snoc p cur c :
  allChars p (snoc cur c) = allChars p cur && p c.
Proof.
  unfold snoc. induction cur as [|a cur IH].
  - simpl. rewrite append_cons || idtac. cbn. rewrite andb_true_r. reflexivity.
  - rewrite append_cons. cbn [allChars]. rewrite IH, andb_assoc. reflexivity.
Qed.

Lemma space_not_token c : isSpace c = true -> isTokenChar c = false.
Proof.
  destruct c as [[] [] [] [] [] [] [] []]; intros H;
    try reflexivity; discriminate H.
Qed.

Lemma not_token_not_norm c :
  isTokenChar c = false -> isNormChar (lowerChar c) = false.
Proof.
  destruct c as [[] [] [] [] [] [] [] []]; intros H;
    try reflexivity; discriminate H.
Qed.

Lemma norm_lower c : isNormChar c = true -> lowerChar c = c.
Proof.
  destruct c as [[] [] [] [] [] [] [] []]; intros H;
    try reflexivity; discriminate H.
Qed.

Lemma flush_kind cur rest :
  tokenKind cur = true -> Forall (fun t => tokenKind t = true) rest ->
  Forall (fun t => tokenKind t = true) (flush cur rest).
Proof.
  intros Hc H. unfold flush. destruct (isEmpty cur); [exact H|].
  constructor; assumption.
Qed.

Lemma tokenizeFrom_kinds s : forall mode cur,
  (match mode with
   | InWord => allChars isTokenChar cur
   | _ => noChars isTokenChar cur
   end) = true ->
  Forall (fun t => tokenKind t = true) (tokenizeFrom mode cur s).
Proof.
  assert (Hone : forall c, isTokenChar c = false ->
            noChars isTokenChar (String c EmptyString) = true).
  { intros c H. unfold noChars. simpl. rewrite H. reflexivity. }
  assert (Hword : forall c, isTokenChar c = true ->
            allChars isTokenChar (String c EmptyString) = true).
  { intros c H. simpl. rewrite H. reflexivity. }
  induction s as [|c s IH]; intros mode cur Hcur; simpl.
  - apply flush_kind; [|constructor].
    unfold tokenKind. destruct mode; rewrite Hcur; auto using orb_true_r.
  - destruct mode.
    + destruct (isTokenChar c) eqn:Hc.
      * apply IH. rewrite allChars_snoc, Hcur, Hc. reflexivity.
      * apply flush_kind; [unfold tokenKind; rewrite Hcur; reflexivity|].
        apply IH. destruct (isSpace c); apply Hone, Hc.
    + destruct (isSpace c) eqn:Hs.
      * apply IH. unfold noChars in *. rewrite allChars_snoc, Hcur.
        rewrite (space_not_token c Hs). reflexivity.
      * apply flush_kind;
          [unfold tokenKind; rewrite Hcur; apply orb_true_r|].
        apply IH. destruct (isTokenChar c) eqn:Hc; [apply Hword, Hc|apply Hone, Hc].
    + destruct (isTokenChar c) eqn:Hc.
      * apply flush_kind;
          [unfold tokenKind; rewrite Hcur; apply orb_true_r|].
        apply IH. apply Hword, Hc.
      * apply IH. unfold noChars in *. rewrite allChars_snoc, Hcur, Hc.
        reflexivity.
Qed.

Lemma separator_normalizes_empty t :
  noChars isTokenChar t = true -> normalizeWord t = EmptyString.
Proof.
  unfold noChars, normalizeWord.
  induction t as [|c t IH]; simpl; [reflexivity|].
  intros H. apply andb_true_iff in H. destruct H as [Hc Ht].
  apply negb_true_iff in Hc. rewrite (not_token_not_norm c Hc). apply IH, Ht.
Qed.

(** X2: every token of a narrative is either a word, made of letters,
    digits, underscores and apostrophes only, or a separator with none of
    them; and a separator is normalised to the empty string, which the
    matching loops skip. *)
Theorem tokens_are_words_or_separators text :
  Forall (fun t =>
            allChars isTokenChar t = true \/
            (noChars isTokenChar t = true /\
             normalizeWord t = EmptyString))
    (tokenizeStory text).
Proof.
  pose proof (tokenizeFrom_kinds text InWord EmptyString eq_refl) as H.
  unfold tokenizeStory. eapply Forall_impl; [exact H|].
  intros t Ht. unfold tokenKind in Ht. apply orb_true_iff in Ht.
  destruct Ht as [Hw|Hs]; [left; exact Hw|right].
  split; [exact Hs | apply separator_normalizes_empty, Hs].
Qed.

Lemma filterChars_all p s : allChars p (filterChars p s) = true.
Proof.
  induction s as [|c s IH]; simpl; [reflexivity|].
  destruct (p c) eqn:Hc; simpl; [rewrite Hc|]; exact IH.
Qed.

Lemma filterChars_id p s : allChars p s = true -> filterChars p s = s.
Proof.
  induction s as [|c s IH]; simpl; [reflexivity|].
  intros H. apply andb_true_iff in H. destruct H as [Hc Hs].
  rewrite Hc, (IH Hs). reflexivity.
Qed.

Lemma toLowerCase_norm s : allChars isNormChar s = true -> toLowerCase s = s.
Proof.
  induction s as [|c s IH]; simpl; [reflexivity|].
  intros H. apply andb_true_iff in H. destruct H as [Hc Hs].
  rewrite (norm_lower c Hc), (IH Hs). reflexivity.
Qed.

(** X3: a normalised word contains lower-case letters, digits and
    apostrophes only, and normalising it again changes nothing. *)
Theorem normalizeWord_idempotent tok :
  allChars isNormChar (normalizeWord tok) = true /\
  normalizeWord (normalizeWord tok) = normalizeWord tok.
Proof.
  assert (H : allChars isNormChar (normalizeWord tok) = true)
    by apply filterChars_all.
  split; [exact H|].
  unfold normalizeWord at 1. rewrite (toLowerCase_norm _ H).
  apply filterChars_id, H.
Qed.

End Tokens.

(** ** The words of a transcript fragment *)
Section SpokenWords.
Import Js Story Reading.

Lemma replaceRuns_kept keep s : forall r,
  keep " "%char = true -> allChars keep (replaceRuns keep r s) = true.
Proof.
  induction s as [|c s IH]; intros r Hsp; simpl; [reflexivity|].
  destruct (keep c) eqn:Hc; simpl.
  - rewrite Hc. apply IH, Hsp.
  - destruct r; simpl; [apply IH, Hsp|]. rewrite Hsp. apply IH, Hsp.
Qed.

Lemma splitSpaces_words s : forall cur inSep,
  allChars spokenChar s = true ->
  allChars isNormChar cur = true ->
  Forall (fun w => allChars isNormChar w = true) (splitSpaces cur inSep s).
Proof.
  induction s as [|c s IH]; intros cur inSep Hs Hcur; simpl.
  - constructor; [exact Hcur|constructor].
  - simpl in Hs. apply andb_true_iff in Hs. destruct Hs as [Hc Hs].
    destruct (isSpace c) eqn:Hsp.
    + destruct inSep; [apply IH; [exact Hs|reflexivity]|].
      constructor; [exact Hcur|]. apply IH; [exact Hs|reflexivity].
    + apply IH; [exact Hs|]. rewrite allChars_snoc, Hcur.
      unfold spokenChar in Hc. rewrite Hsp, orb_false_r in Hc. rewrite Hc.
      reflexivity.
Qed.

(** X4: every word that [advanceStoryWithTranscript] takes from a
    fragment is non-empty and made of lower-case letters, digits and
    apostrophes only. *)
Theorem spokenWords_shape text :
  Forall (fun w => isEmpty w = false /\ allChars isNormChar w = true)
    (spokenWords text).
Proof.
  unfold spokenWords. apply Forall_forall. intros w Hw.
  apply list_elem_of_filter in Hw. destruct Hw as [Hne Hin].
  split; [exact Hne|].
  assert (H : Forall (fun w => allChars isNormChar w = true)
                (splitSpaces EmptyString false
                   (replaceRuns (fun c => isNormChar c || isSpace c) false
                      (toLowerCase text)))).
  { apply splitSpaces_words; [|reflexivity].
    apply (replaceRuns_kept spokenChar). reflexivity. }
  rewrite Forall_forall in H. apply H, Hin.
Qed.

Lemma toLowerCase_app a b :
  toLowerCase (String.append a b)
  = String.append (toLowerCase a) (toLowerCase b).
Proof.
  induction a as [|c a IH]; [reflexivity|].
  rewrite append_cons. simpl. rewrite IH. reflexivity.
Qed.

Lemma replaceRuns_app_space keep a b : forall r,
  keep " "%char = true ->
  replaceRuns keep r (String.append a (String " "%char b))
  = String.append (replaceRuns keep r a)
      (String " "%char (replaceRuns keep false b)).
Proof.
  induction a as [|c a IH]; intros r Hsp.
  - simpl. rewrite Hsp. reflexivity.
  - rewrite append_cons. simpl. destruct (keep c).
    + rewrite IH by exact Hsp. reflexivity.
    + destruct r; rewrite IH by exact Hsp; reflexivity.
Qed.

Lemma splitSpaces_after_separator y :
  nonEmptyWords (splitSpaces EmptyString true y)
  = nonEmptyWords (splitSpaces EmptyString false y).
Proof.
  destruct y as [|c y]; [reflexivity|]. simpl.
  destruct (isSpace c); reflexivity.
Qed.

Lemma splitSpaces_app_space x y : forall cur inSep,
  (inSep = true -> cur = EmptyString) ->
  nonEmptyWords (splitSpaces cur inSep (String.append x (String " "%char y)))
  = nonEmptyWords (splitSpaces cur inSep x)
    ++ nonEmptyWords (splitSpaces EmptyString false y).
Proof.
  induction x as [|c x IH]; intros cur inSep Hinv.
  - simpl. destruct inSep.
    + rewrite (Hinv eq_refl). simpl. apply splitSpaces_after_separator.
    + unfold nonEmptyWords at 1 2. rewrite !filter_cons. simpl.
      fold (nonEmptyWords (splitSpaces EmptyString true y)).
      rewrite splitSpaces_after_separator.
      destruct (decide (isEmpty cur = false)); reflexivity.
  - rewrite append_cons. simpl. destruct (isSpace c).
    + destruct inSep.
      * apply IH. reflexivity.
      * unfold nonEmptyWords at 1 2. rewrite !filter_cons.
        fold (nonEmptyWords
                (splitSpaces EmptyString true
                   (String.append x (String " "%char y)))).
        fold (nonEmptyWords (splitSpaces EmptyString true x)).
        rewrite IH by reflexivity.
        destruct (decide (isEmpty cur = false)); reflexivity.
    + apply IH. discriminate.
Qed.

(** X5: the words of two fragments joined by a space are the words of the
    first followed by the words of the second (as when [handleSpeechResult]
    joins the final results of one event). *)
Theorem spokenWords_join a b :
  spokenWords (String.append a (String " "%char b))
  = spokenWords a ++ spokenWords b.
Proof.
  unfold spokenWords.
  change (toLowerCase (String.append a (String " "%char b)))
    with (toLowerCase (String.append a (String " "%char b))).
  rewrite toLowerCase_app. simpl toLowerCase.
  change (lowerChar " "%char) with " "%char.
  rewrite replaceRuns_app_space by reflexivity.
  apply (splitSpaces_app_space _ _ EmptyString false). discriminate.
Qed.

End SpokenWords.

(** ** More on the cursor and the effects of a pass *)
Section Pass.
Import Js Story Reading.

Lemma skipEmpty_le rest i : skipEmpty rest i <= i + length rest.
Proof.
  revert i. induction rest as [|t rest IH]; intros i; simpl; [lia|].
  destruct (isEmpty t); [|lia]. specialize (IH (S i)). lia.
Qed.

Lemma skipEmpty_drop_le (norm : list string) i :
  i <= length norm -> skipEmpty (drop i norm) i <= length norm.
Proof.
  intros H. pose proof (skipEmpty_le (drop i norm) i) as Hs.
  rewrite length_drop in Hs. lia.
Qed.

Lemma scan_bound norm spoken : forall i p fx,
  i <= length norm ->
  fst (fst (scan norm spoken i p fx)) <= length norm.
Proof.
  induction spoken as [|w ws IH]; intros i p fx Hi; simpl; [exact Hi|].
  pose proof (skipEmpty_drop_le norm i Hi) as Hs.
  destruct (norm !! skipEmpty (drop i norm) i) as [t|] eqn:Ht; [|exact Hs].
  apply lookup_lt_Some in Ht.
  destruct (eqLoose t w); [apply IH; lia|].
  destruct (isStopWord t); apply IH; lia.
Qed.

Lemma recovery_in_story st spoken :
  storyIndex st <= length (storyNorm st) ->
  attemptStoryRecovery st spoken <= length (storyNorm st).
Proof.
  intros Hi. unfold attemptStoryRecovery.
  destruct (findStart _ _ _ _ _) as [r|] eqn:H; [|exact Hi].
  apply findStart_bound in H.
  assert (length (storyWindow st) <= length (storyNorm st) - storyIndex st).
  { unfold storyWindow. rewrite length_take, length_drop. lia. }
  lia.
Qed.

(** X6: the cursor stays inside the narrative: if it is at most the
    number of tokens before a call of [advanceStoryWithTranscript], it is
    so after it, whether the scan or the recovery moved it. *)
Theorem storyIndex_in_story st text :
  storyIndex st <= length (storyNorm st) ->
  storyIndex (fst (advanceStoryWithTranscript st text))
  <= length (storyNorm (fst (advanceStoryWithTranscript st text))).
Proof.
  intros Hi.
  destruct (advance_fields st text) as (_ & Hn & _). rewrite Hn. clear Hn.
  unfold advanceStoryWithTranscript.
  destruct (negb (storyActive st) || isEmpty text); [exact Hi|].
  destruct (spokenWords text) as [|w ws] eqn:Hsp; [exact Hi|].
  pose proof (scan_bound (storyNorm st) (w :: ws) (storyIndex st) 0 [] Hi) as Hs.
  destruct (scan (storyNorm st) (w :: ws) (storyIndex st) 0 [])
    as [[i p] fx]. simpl in Hs.
  match goal with |- context [attemptStoryRecovery ?s1 ?l] =>
    pose proof (recovery_in_story s1 l Hi) as Hr;
    change (storyNorm s1) with (storyNorm st) in Hr;
    generalize dependent (attemptStoryRecovery s1 l) end.
  intros r Hr.
  destruct ((p =? 0)%nat && (3 <=? length (w :: ws))%nat);
    [destruct (storyIndex st <? r)%nat|];
    match goal with |- context [if (storyIndex st <? ?x)%nat then _ else _] =>
      destruct (storyIndex st <? x)%nat end; simpl; lia.
Qed.

Lemma storyIndex_in_story_witness :
  storyIndex (opened "Once upon a time")
  <= length (storyNorm (opened "Once upon a time")) /\
  storyIndex (fst (advanceStoryWithTranscript (opened "Once upon a time")
                     "once upon a time they lived"))
  <= length (storyNorm
               (fst (advanceStoryWithTranscript (opened "Once upon a time")
                       "once upon a time they lived"))).
Proof.
  assert (H : storyIndex (opened "Once upon a time")
              <= length (storyNorm (opened "Once upon a time")))
    by (vm_compute; lia).
  split; [exact H|].
  exact (storyIndex_in_story (opened "Once upon a time")
           "once upon a time they lived" H).
Defined.


Lemma lastN_suffix {A} n (l : list A) : lastN n l `suffix_of` l.
Proof. exists (take (length l - n) l). unfold lastN. symmetry. apply take_drop. Qed.

Lemma lastN_length {A} n (l : list A) :
  length (lastN n l) = Nat.min n (length l).
Proof. unfold lastN. rewrite length_drop. lia. Qed.

(** X7: after a pass that found words in the fragment, [_recentSpoken]
    holds the last 30 words heard so far: it is the end of the old window
    followed by the new words, cut to 30 entries. *)
Theorem recentSpoken_window st text :
  storyActive st = true ->
  spokenWords text <> [] ->
  recentSpoken (fst (advanceStoryWithTranscript st text))
    `suffix_of` (recentSpoken st ++ spokenWords text) /\
  length (recentSpoken (fst (advanceStoryWithTranscript st text)))
  = Nat.min 30 (length (recentSpoken st ++ spokenWords text)).
Proof.
  intros Hact Hne. unfold advanceStoryWithTranscript.
  rewrite Hact, (spokenWords_nonempty text Hne). simpl negb. simpl orb.
  cbv iota. destruct (spokenWords text) as [|w ws] eqn:Hsp; [contradiction|].
  destruct (scan _ _ _ _ _) as [[i p] fx].
  set (l := recentSpoken st ++ w :: ws).
  assert (Hrec : (if (30 <? length l)%nat then lastN 30 l else l)
                   `suffix_of` l /\
                 length (if (30 <? length l)%nat then lastN 30 l else l)
                 = Nat.min 30 (length l)).
  { destruct (Nat.ltb_spec 30 (length l)).
    - split; [apply lastN_suffix|apply lastN_length].
    - split; [reflexivity|lia]. }
  match goal with |- context [if (storyIndex st <? ?x)%nat then _ else _] =>
    destruct (storyIndex st <? x)%nat end; exact Hrec.
Qed.

Lemma recentSpoken_window_witness :
  storyActive (opened "Once upon a time") = true /\
  spokenWords "once upon" <> [] /\
  length (recentSpoken
            (fst (advanceStoryWithTranscript (opened "Once upon a time")
                    "once upon")))
  = Nat.min 30
      (length (recentSpoken (opened "Once upon a time")
               ++ spokenWords "once upon")).
Proof.
  assert (H1 : storyActive (opened "Once upon a time") = true) by reflexivity.
  assert (H2 : spokenWords "once upon" <> []) by (vm_compute; discriminate).
  split; [exact H1|]. split; [exact H2|].
  exact (proj2 (recentSpoken_window (opened "Once upon a time") "once upon"
                  H1 H2)).
Defined.

(** X8: the window [_recentSpoken] is only written: the cursor and the
    effects of a pass are the same whatever the window holds (recovery
    matches the words of the current fragment, not the recent ones). *)
Theorem alignment_ignores_recentSpoken st recent text :
  storyIndex
    (fst (advanceStoryWithTranscript
            (mkStory (storyActive st) (storyTokens st) (storyNorm st)
               (storyIndex st) recent) text))
  = storyIndex (fst (advanceStoryWithTranscript st text)) /\
  snd (advanceStoryWithTranscript
         (mkStory (storyActive st) (storyTokens st) (storyNorm st)
            (storyIndex st) recent) text)
  = snd (advanceStoryWithTranscript st text).
Proof.
  unfold advanceStoryWithTranscript. cbn [storyActive storyNorm storyIndex
    storyTokens recentSpoken].
  destruct (negb (storyActive st) || isEmpty text); [split; reflexivity|].
  destruct (spokenWords text) as [|w ws]; [split; reflexivity|].
  destruct (scan _ _ _ _ _) as [[i p] fx].
  unfold attemptStoryRecovery, storyWindow.
  cbn [storyActive storyNorm storyIndex storyTokens recentSpoken].
  match goal with |- context [if (storyIndex st <? ?x)%nat then _ else _] =>
    destruct (storyIndex st <? x)%nat end; split; reflexivity.
Qed.

Lemma scan_effects norm spoken : forall i p fx i' p' fx',
  scan norm spoken i p fx = (i', p', fx') ->
  exists heard,
    fx' = fx ++ map TriggerStorySfx heard /\
    heard `sublist_of` spoken /\
    p' = p + length heard.
Proof.
  induction spoken as [|w ws IH]; intros i p fx i' p' fx' H; simpl in H.
  - inversion H; subst. exists []. rewrite app_nil_r.
    split; [reflexivity|]. split; [constructor|simpl; lia].
  - destruct (norm !! skipEmpty (drop i norm) i) as [t|].
    + destruct (eqLoose t w); [|destruct (isStopWord t)].
      * apply IH in H. destruct H as (heard & Hfx & Hsub & Hp).
        exists (w :: heard). rewrite <- app_assoc in Hfx.
        split; [exact Hfx|]. split; [apply sublist_skip, Hsub|simpl; lia].
      * apply IH in H. destruct H as (heard & Hfx & Hsub & Hp).
        exists heard. repeat split; [exact Hfx|apply sublist_cons, Hsub|exact Hp].
      * apply IH in H. destruct H as (heard & Hfx & Hsub & Hp).
        exists heard. repeat split; [exact Hfx|apply sublist_cons, Hsub|exact Hp].
    + inversion H; subst. exists []. rewrite app_nil_r.
      split; [reflexivity|]. split; [apply sublist_nil_l|simpl; lia].
Qed.

(** X9: the effects of a pass are the cue lookups for the words that
    matched, which are words of the fragment in the order spoken, followed
    by the highlight update and the prefetch exactly when the cursor
    moved. *)
Theorem pass_effects st text :
  exists heard,
    heard `sublist_of` spokenWords text /\
    snd (advanceStoryWithTranscript st text)
    = map TriggerStorySfx heard
      ++ (if (storyIndex st
              <? storyIndex (fst (advanceStoryWithTranscript st text)))%nat
          then [UpdateStoryHighlight; PrefetchStoryWindow] else []).
Proof.
  unfold advanceStoryWithTranscript.
  destruct (negb (storyActive st) || isEmpty text).
  { exists []. split; [apply sublist_nil_l|]. simpl.
    rewrite Nat.ltb_irrefl. reflexivity. }
  destruct (spokenWords text) as [|w ws] eqn:Hsp.
  { exists []. split; [constructor|]. simpl.
    rewrite Nat.ltb_irrefl. reflexivity. }
  destruct (scan (storyNorm st) (w :: ws) (storyIndex st) 0 [])
    as [[i p] fx] eqn:Hscan.
  destruct (scan_effects _ _ _ _ _ _ _ _ Hscan) as (heard & Hfx & Hsub & _).
  simpl in Hfx. subst fx. exists heard. split; [exact Hsub|].
  match goal with |- context [if (storyIndex st <? ?x)%nat then _ else _] =>
    generalize x; intros j; destruct (Nat.ltb_spec (storyIndex st) j) as [Hlt|Hge] end;
    cbn [fst snd storyIndex].
  - destruct (Nat.ltb_spec (storyIndex st) j); [reflexivity|lia].
  - rewrite Nat.ltb_irrefl, app_nil_r. reflexivity.
Qed.

End Pass.

(** ** Reading the narrative aloud, and where recovery lands *)
Section ReadingAloud.
Import Js Story Reading.

Lemma scan_skip_separator norm w ws i p fx :
  norm !! i = Some EmptyString ->
  scan norm (w :: ws) i p fx = scan norm (w :: ws) (S i) p fx.
Proof.
  intros H.
  assert (E : skipEmpty (drop i norm) i = skipEmpty (drop (S i) norm) (S i)).
  { rewrite (drop_S norm EmptyString i H). reflexivity. }
  cbn [scan]. rewrite E. reflexivity.
Qed.

Lemma skipEmpty_word norm i t :
  norm !! i = Some t -> isEmpty t = false -> skipEmpty (drop i norm) i = i.
Proof.
  intros H Ht. rewrite (drop_S norm t i H). cbn [skipEmpty].
  rewrite Ht. reflexivity.
Qed.

Lemma nonEmptyWords_cons t l :
  nonEmptyWords (t :: l)
  = if isEmpty t then nonEmptyWords l else t :: nonEmptyWords l.
Proof.
  unfold nonEmptyWords. rewrite filter_cons.
  destruct (isEmpty t); reflexivity.
Qed.

Lemma triple_eq {A B C} (a a' : A) (b b' : B) (c c' : C) :
  a = a' -> b = b' -> c = c' -> (a, b, c) = (a', b', c').
Proof. congruence. Qed.

Lemma scan_verbatim norm : forall toks i p fx rest w,
  drop i norm = toks ++ rest ->
  last toks = Some w -> isEmpty w = false ->
  scan norm (nonEmptyWords toks) i p fx
  = (i + length toks, p + length (nonEmptyWords toks),
     fx ++ map TriggerStorySfx (nonEmptyWords toks)).
Proof.
  induction toks as [|t toks IH]; intros i p fx rest w Hdrop Hlast Hw;
    [discriminate|].
  assert (Ht : norm !! i = Some t).
  { rewrite <- (Nat.add_0_r i), <- lookup_drop, Hdrop. reflexivity. }
  assert (Hdrop' : drop (S i) norm = toks ++ rest).
  { pose proof (drop_S norm t i Ht) as E. rewrite Hdrop in E.
    rewrite <- app_comm_cons in E. congruence. }
  rewrite nonEmptyWords_cons.
  destruct toks as [|t' toks'].
  - simpl in Hlast. inversion Hlast; subst t. rewrite Hw.
    change (nonEmptyWords []) with (@nil string). cbn [scan].
    rewrite (skipEmpty_word norm i w Ht Hw), Ht, eqLoose_refl.
    apply triple_eq; [simpl; lia|simpl; lia|reflexivity].
  - assert (Hlast' : last (t' :: toks') = Some w) by exact Hlast.
    specialize (IH (S i) p fx rest w Hdrop' Hlast' Hw) as IHe.
    destruct (isEmpty t) eqn:He.
    + destruct t; [|discriminate].
      destruct (nonEmptyWords (t' :: toks')) as [|w0 ws0] eqn:Hws.
      * exfalso.
        assert (Hin : w ∈ nonEmptyWords (t' :: toks')).
        { apply list_elem_of_filter. split; [exact Hw|].
          apply last_Some_elem_of. exact Hlast'. }
        rewrite Hws in Hin. inversion Hin.
      * rewrite (scan_skip_separator norm w0 ws0 i p fx Ht), IHe.
        apply triple_eq; [simpl; lia|reflexivity|reflexivity].
    + cbn [scan].
      rewrite (skipEmpty_word norm i t Ht He), Ht, eqLoose_refl.
      rewrite (IH (S i) (S p) (fx ++ [TriggerStorySfx t]) rest w
                 Hdrop' Hlast' Hw).
      rewrite <- app_assoc.
      apply triple_eq; [simpl; lia|simpl; lia|reflexivity].
Qed.

(** X10: reading aloud the tokens that follow the cursor, up to a word,
    moves the cursor past that word, and every word read is looked up in
    the cue map, in order. *)
Theorem reading_verbatim st text toks rest w :
  storyActive st = true ->
  drop (storyIndex st) (storyNorm st) = toks ++ rest ->
  last toks = Some w -> isEmpty w = false ->
  spokenWords text = nonEmptyWords toks ->
  storyIndex (fst (advanceStoryWithTranscript st text))
  = storyIndex st + length toks /\
  snd (advanceStoryWithTranscript st text)
  = map TriggerStorySfx (nonEmptyWords toks)
    ++ [UpdateStoryHighlight; PrefetchStoryWindow].
Proof.
  intros Hact Hdrop Hlast Hw Hsp.
  assert (Hin : w ∈ nonEmptyWords toks).
  { apply list_elem_of_filter. split; [exact Hw|].
    apply last_Some_elem_of. exact Hlast. }
  assert (Hne : spokenWords text <> []).
  { rewrite Hsp. intros E. rewrite E in Hin. inversion Hin. }
  assert (Hlen : 0 < length toks).
  { destruct toks; [discriminate|simpl; lia]. }
  assert (Hpos : 0 < length (nonEmptyWords toks)).
  { destruct (nonEmptyWords toks); [inversion Hin|simpl; lia]. }
  unfold advanceStoryWithTranscript.
  rewrite Hact, (spokenWords_nonempty text Hne). simpl negb. simpl orb.
  cbv iota. rewrite Hsp.
  destruct (nonEmptyWords toks) as [|w0 ws0] eqn:Hws; [simpl in Hpos; lia|].
  rewrite <- Hws.
  rewrite (scan_verbatim (storyNorm st) toks (storyIndex st) 0 [] rest w
             Hdrop Hlast Hw).
  destruct (Nat.eqb_spec (0 + length (nonEmptyWords toks)) 0) as [E|_];
    [rewrite Hws in E; simpl in E; lia|]. simpl andb. cbv iota.
  destruct (Nat.ltb_spec (storyIndex st) (storyIndex st + length toks));
    [|lia].
  split; reflexivity.
Qed.

Lemma reading_verbatim_witness :
  storyActive (opened "Once upon a time") = true /\
  drop (storyIndex (opened "Once upon a time"))
    (storyNorm (opened "Once upon a time"))
  = ["once"; EmptyString; "upon"] ++ [EmptyString; "a"; EmptyString; "time"] /\
  last ["once"; EmptyString; "upon"] = Some "upon" /\
  isEmpty "upon" = false /\
  spokenWords "Once upon" = nonEmptyWords ["once"; EmptyString; "upon"] /\
  storyIndex (fst (advanceStoryWithTranscript (opened "Once upon a time")
                     "Once upon"))
  = storyIndex (opened "Once upon a time") + 3.
Proof.
  assert (H1 : storyActive (opened "Once upon a time") = true) by reflexivity.
  assert (H2 : drop (storyIndex (opened "Once upon a time"))
                 (storyNorm (opened "Once upon a time"))
               = ["once"; EmptyString; "upon"]
                 ++ [EmptyString; "a"; EmptyString; "time"])
    by reflexivity.
  assert (H3 : last ["once"; EmptyString; "upon"] = Some "upon")
    by reflexivity.
  assert (H4 : isEmpty "upon" = false) by reflexivity.
  assert (H5 : spokenWords "Once upon"
               = nonEmptyWords ["once"; EmptyString; "upon"])
    by reflexivity.
  split; [exact H1|]. split; [exact H2|]. split; [exact H3|].
  split; [exact H4|]. split; [exact H5|].
  exact (proj1 (reading_verbatim (opened "Once upon a time") "Once upon"
                  ["once"; EmptyString; "upon"]
                  [EmptyString; "a"; EmptyString; "time"] "upon"
                  H1 H2 H3 H4 H5)).
Defined.

Lemma findStart_first window spoken m : forall n s r,
  findStart window spoken m n s = Some r ->
  forall j, s <= j < r -> runMatched (drop j window) spoken < m.
Proof.
  induction n as [|n IH]; intros s r H j Hj; simpl in H; [discriminate|].
  destruct (Nat.leb_spec m (runMatched (drop s window) spoken)) as [Hm|Hm].
  - inversion H; subst. lia.
  - destruct (decide (j = s)) as [->|Hne]; [exact Hm|].
    apply (IH (S s) r H). lia.
Qed.

(** X11: when recovery moves the cursor, it lands on the first offset of
    the lookahead window from which at least [min(3, spoken.length)] words
    of the fragment match, and that offset leaves more than that many
    tokens of the window after it. *)
Theorem recovery_lands_on_first_match st spoken k :
  attemptStoryRecovery st spoken = storyIndex st + S k ->
  Nat.min 3 (length spoken)
  <= runMatched (drop (S k) (storyWindow st)) spoken /\
  (forall j, j <= k ->
     runMatched (drop j (storyWindow st)) spoken
     < Nat.min 3 (length spoken)) /\
  S k + Nat.min 3 (length spoken) < length (storyWindow st).
Proof.
  unfold attemptStoryRecovery.
  destruct (findStart _ _ _ _ _) as [r|] eqn:H; [|lia].
  intros E. assert (r = S k) by lia. subst r.
  split; [eapply findStart_matched; exact H|].
  split.
  - intros j Hj. eapply findStart_first; [exact H|lia].
  - apply findStart_bound in H. lia.
Qed.

Lemma recovery_lands_on_first_match_witness :
  attemptStoryRecovery (opened "x dog it barked loudly at night")
    (spokenWords "dog barked loudly")
  = storyIndex (opened "x dog it barked loudly at night") + 1 /\
  Nat.min 3 (length (spokenWords "dog barked loudly"))
  <= runMatched (drop 1 (storyWindow (opened "x dog it barked loudly at night")))
       (spokenWords "dog barked loudly").
Proof.
  assert (H : attemptStoryRecovery (opened "x dog it barked loudly at night")
                (spokenWords "dog barked loudly")
              = storyIndex (opened "x dog it barked loudly at night") + 1)
    by reflexivity.
  split; [exact H|].
  exact (proj1 (recovery_lands_on_first_match
                  (opened "x dog it barked loudly at night")
                  (spokenWords "dog barked loudly") 0 H)).
Defined.

End ReadingAloud.

(** ** Possessives and plurals under loose equality *)
Section LooseForms.
Import Js Story Reading.

Lemma stripSuffix_eq suf s :
  stripSuffix suf s
  = if String.eqb s suf then Some EmptyString
    else match s with
         | EmptyString => None
         | String c s' => option_map (String c) (stripSuffix suf s')
         end.
Proof. destruct s; reflexivity. Qed.

Lemma string_length_app a b :
  String.length (String.append a b) = String.length a + String.length b.
Proof.
  induction a as [|c a IH]; [reflexivity|].
  rewrite append_cons. simpl. rewrite IH. reflexivity.
Qed.

Lemma stripSuffix_app suf r : stripSuffix suf (String.append r suf) = Some r.
Proof.
  induction r as [|c r IH].
  - change (String.append EmptyString suf) with suf.
    rewrite stripSuffix_eq, String.eqb_refl. reflexivity.
  - rewrite append_cons, stripSuffix_eq.
    destruct (String.eqb_spec (String c (String.append r suf)) suf) as [E|_].
    + exfalso. apply (f_equal String.length) in E.
      simpl in E. rewrite string_length_app in E. lia.
    + rewrite IH. reflexivity.
Qed.

Lemma stripSuffix_some suf : forall s r,
  stripSuffix suf s = Some r -> s = String.append r suf.
Proof.
  induction s as [|c s IH]; intros r H; rewrite stripSuffix_eq in H.
  - destruct (String.eqb_spec EmptyString suf) as [E|_]; [|discriminate].
    inversion H; subst. reflexivity.
  - destruct (String.eqb_spec (String c s) suf) as [E|_].
    + inversion H; subst. reflexivity.
    + destruct (stripSuffix suf s) as [r'|] eqn:Hs; [|discriminate].
      simpl in H. inversion H; subst.
      rewrite append_cons, (IH r' eq_refl). reflexivity.
Qed.

Lemma stripSuffix_none suf s r :
  stripSuffix suf s = None -> s <> String.append r suf.
Proof.
  intros H E. subst s. rewrite stripSuffix_app in H. discriminate.
Qed.

Lemma chars_app a b :
  list_ascii_of_string (String.append a b)
  = list_ascii_of_string a ++ list_ascii_of_string b.
Proof.
  induction a as [|c a IH]; [reflexivity|].
  rewrite append_cons. simpl. rewrite IH. reflexivity.
Qed.

Lemma chars_inj a b :
  list_ascii_of_string a = list_ascii_of_string b -> a = b.
Proof.
  intros H. rewrite <- (string_of_list_ascii_of_string a),
    <- (string_of_list_ascii_of_string b), H. reflexivity.
Qed.

(** [a ++ c = b ++ d ++ c] gives [a = b ++ d]. *)
Lemma append_cancel_last a b (c : ascii) :
  String.append a (String c EmptyString)
  = String.append b (String c EmptyString) -> a = b.
Proof.
  intros H. apply (f_equal list_ascii_of_string) in H.
  rewrite !chars_app in H. apply app_inj_tail in H.
  apply chars_inj, H.
Qed.

Lemma append_last_differs a b (c d : ascii) :
  c <> d ->
  String.append a (String c EmptyString)
  <> String.append b (String d EmptyString).
Proof.
  intros Hcd H. apply (f_equal list_ascii_of_string) in H.
  rewrite !chars_app in H. apply app_inj_tail in H.
  destruct H as [_ H]. congruence.
Qed.

Lemma append_one a (c : ascii) s :
  String.append a (String c s)
  = String.append (String.append a (String c EmptyString)) s.
Proof.
  induction a as [|x a IH]; [reflexivity|].
  rewrite !append_cons, IH. reflexivity.
Qed.

Lemma replaceSuffixes_unchanged sufs s :
  Forall (fun suf => stripSuffix suf s = None) sufs ->
  replaceSuffixes sufs s = s.
Proof.
  induction 1 as [|suf sufs H _ IH]; [reflexivity|].
  simpl. rewrite H. exact IH.
Qed.

Lemma replaceSuffixes_fixed sufs s :
  Forall (fun suf => suf <> EmptyString) sufs ->
  replaceSuffixes sufs s = s ->
  Forall (fun suf => stripSuffix suf s = None) sufs.
Proof.
  induction 1 as [|suf sufs Hne _ IH]; intros H; [constructor|].
  simpl in H. destruct (stripSuffix suf s) as [r|] eqn:Hs.
  - exfalso. subst r. apply stripSuffix_some in Hs.
    apply (f_equal String.length) in Hs. rewrite string_length_app in Hs.
    destruct suf; [congruence|simpl in Hs; lia].
  - constructor; [exact Hs|apply IH, H].
Qed.

Lemma assoc_elem {A} a (l : list (string * A)) v :
  assoc a l = Some v -> (a, v) ∈ l.
Proof.
  induction l as [|[k x] l IH]; simpl; [discriminate|].
  destruct (String.eqb_spec a k) as [->|_].
  - intros H. inversion H; subst. left.
  - intros H. right. apply IH, H.
Qed.

Lemma irregularIs_elem a b : irregularIs a b = true -> (a, b) ∈ irregular.
Proof.
  unfold irregularIs. destruct (assoc a irregular) as [v|] eqn:H;
    [|discriminate].
  intros Hv. apply andb_true_iff in Hv. destruct Hv as [_ Hv].
  apply String.eqb_eq in Hv. subst v. apply assoc_elem, H.
Qed.

Lemma tableAvoids_sound suf w :
  tableAvoids suf = true ->
  irregularIs w (String.append w suf) = false /\
  irregularIs (String.append w suf) w = false.
Proof.
  intros H. unfold tableAvoids in H. rewrite forallb_forall in H.
  split.
  - destruct (irregularIs w (String.append w suf)) eqn:E; [|reflexivity].
    apply irregularIs_elem, list_elem_of_In, H in E. simpl in E.
    rewrite stripSuffix_app, String.eqb_refl, andb_false_r in E.
    discriminate.
  - destruct (irregularIs (String.append w suf) w) eqn:E; [|reflexivity].
    apply irregularIs_elem, list_elem_of_In, H in E. simpl in E.
    rewrite stripSuffix_app, String.eqb_refl in E. discriminate.
Qed.

Lemma append_nonempty w suf :
  suf <> EmptyString ->
  isEmpty (String.append w suf) = false /\
  String.eqb w (String.append w suf) = false.
Proof.
  intros Hs. split.
  - destruct w; [destruct suf; [congruence|reflexivity]|reflexivity].
  - apply eqb_neq. intros E. apply (f_equal String.length) in E.
    rewrite string_length_app in E. destruct suf; [congruence|simpl in E; lia].
Qed.

(** X12: a word without possessive ending is loosely equal to its
    possessive [w's] exactly when stripping its suffixes leaves something:
    [dog] and [dog's] match, [s] and [s's] do not. *)
Theorem eqLoose_possessive w :
  w <> EmptyString -> base w = w ->
  eqLoose w (String.append w "'s") = negb (isEmpty (strip w)).
Proof.
  intros Hw Hb.
  destruct (append_nonempty w "'s") as [Hne Hneq]; [discriminate|].
  destruct (tableAvoids_sound "'s" w eq_refl) as [Hi1 Hi2].
  assert (Hb2 : base (String.append w "'s") = w).
  { unfold base. simpl. rewrite stripSuffix_app. reflexivity. }
  unfold eqLoose. rewrite Hne, Hneq, Hb, Hb2, Hi1, Hi2.
  destruct w; [congruence|]. simpl isEmpty at 1. simpl orb. cbv iota.
  rewrite String.eqb_refl.
  destruct (isEmpty (strip (String a w))); reflexivity.
Qed.

Lemma eqLoose_possessive_witness :
  eqLoose "dog" (String.append "dog" "'s") = negb (isEmpty (strip "dog")).
Proof.
  apply (eqLoose_possessive "dog"); [discriminate|reflexivity].
Defined.

(** X13: a bare stem [w] (no possessive ending, no suffix that [strip]
    removes) is loosely equal to its plural [ws] exactly when [w] does not
    end in [e]: [bell] and [bells] match, [horse] and [horses] do not,
    because [strip] takes [es] off the plural. *)
Theorem eqLoose_plural w :
  w <> EmptyString -> base w = w -> strip w = w ->
  eqLoose w (String.append w "s") = negb (endsWith "e" w).
Proof.
  intros Hw Hb Hs.
  destruct (append_nonempty w "s") as [Hne Hneq]; [discriminate|].
  destruct (tableAvoids_sound "s" w eq_refl) as [Hi1 Hi2].
  pose proof Hb as Hbw.
  apply replaceSuffixes_fixed in Hb;
    [|repeat constructor; discriminate].
  inversion Hb as [|? ? _ Hb']; subst. inversion Hb' as [|? ? Hap _]; subst.
  clear Hb Hb'.
  assert (Hb2 : base (String.append w "s") = String.append w "s").
  { apply replaceSuffixes_unchanged. repeat constructor.
    - destruct (stripSuffix "'s" (String.append w "s")) as [r|] eqn:E;
        [|reflexivity].
      exfalso. apply stripSuffix_some in E.
      rewrite (append_one r "'" "s") in E. apply append_cancel_last in E.
      subst w. rewrite stripSuffix_app in Hap. discriminate.
    - destruct (stripSuffix "'" (String.append w "s")) as [r|] eqn:E;
        [|reflexivity].
      exfalso. apply stripSuffix_some in E.
      revert E. apply append_last_differs. discriminate. }
  assert (H1 : replaceSuffixes ["ing"; "ed"; "ly"; "er"; "est"]
                 (String.append w "s") = String.append w "s").
  { apply replaceSuffixes_unchanged.
    repeat constructor;
      match goal with |- stripSuffix ?suf _ = None =>
        destruct (stripSuffix suf (String.append w "s")) as [r|] eqn:E;
          [exfalso|reflexivity] end;
      apply stripSuffix_some in E.
    - rewrite (append_one r "i" "ng"), (append_one _ "n" "g") in E.
      revert E. apply append_last_differs. discriminate.
    - rewrite (append_one r "e" "d") in E.
      revert E. apply append_last_differs. discriminate.
    - rewrite (append_one r "l" "y") in E.
      revert E. apply append_last_differs. discriminate.
    - rewrite (append_one r "e" "r") in E.
      revert E. apply append_last_differs. discriminate.
    - rewrite (append_one r "e" "st"), (append_one _ "s" "t") in E.
      revert E. apply append_last_differs. discriminate. }
  assert (Hew : isEmpty w = false) by (destruct w; [congruence|reflexivity]).
  assert (Hstrip : strip (String.append w "s")
                   = match stripSuffix "e" w with Some r => r | None => w end).
  { unfold strip. rewrite H1. cbn [replaceSuffixes].
    destruct (stripSuffix "e" w) as [r|] eqn:He.
    - apply stripSuffix_some in He.
      rewrite He at 1. rewrite <- (append_one r "e" "s"), stripSuffix_app.
      reflexivity.
    - destruct (stripSuffix "es" (String.append w "s")) as [r|] eqn:E.
      + exfalso. apply stripSuffix_some in E.
        rewrite (append_one r "e" "s") in E. apply append_cancel_last in E.
        rewrite E, stripSuffix_app in He. discriminate.
      + rewrite stripSuffix_app. reflexivity. }
  unfold eqLoose. rewrite Hew, Hne, Hneq, Hb2, Hbw, Hs, Hstrip, Hi1, Hi2.
  unfold endsWith. cbn [orb negb andb].
  destruct (stripSuffix "e" w) as [r|] eqn:He.
  - apply stripSuffix_some in He.
    destruct (String.eqb_spec w r) as [E|_].
    + exfalso. rewrite <- E in He. apply (f_equal String.length) in He.
      rewrite string_length_app in He. simpl in He. lia.
    + rewrite andb_false_r. reflexivity.
  - rewrite Hew, String.eqb_refl. reflexivity.
Qed.

Lemma eqLoose_plural_witness :
  eqLoose "horse" (String.append "horse" "s") = negb (endsWith "e" "horse")
  /\ eqLoose "bell" (String.append "bell" "s") = negb (endsWith "e" "bell").
Proof.
  split.
  - apply (eqLoose_plural "horse"); [discriminate|reflexivity|reflexivity].
  - apply (eqLoose_plural "bell"); [discriminate|reflexivity|reflexivity].
Defined.

End LooseForms.

(** ** Searching, remembering and playing *)
Section Searching.
Import Js Engine Audible.

(** X14: an answer of the remote search is cached: once [searchAudio]
    has answered a query (saved sounds off), the same query is answered
    again with the same URL without any write, whatever the sources would
    say now. *)
Theorem search_answer_is_cached e q reply e1 url :
  savedSoundsEnabled (cfg e) = false ->
  searchAudio e q reply = (e1, Some url) ->
  forall reply', searchAudio e1 q reply' = (e1, Some url).
Proof.
  intros Hs H reply'. unfold searchAudio in H. rewrite Hs in H.
  destruct (hasKey (freesoundApiKey (cfg e))) eqn:Hk; [|discriminate].
  unfold searchFreesound in H.
  destruct (soundCache e !! cacheKey (simplifySfxQuery q)) as [u|] eqn:Hc.
  - inversion H; subst e1 u. unfold searchAudio. rewrite Hs, Hk.
    unfold searchFreesound. rewrite Hc. reflexivity.
  - destruct (remote reply) as [u| |]; [|discriminate|discriminate].
    injection H as He Hu. subst u. rewrite <- He.
    destruct (isEmpty url); unfold searchAudio;
      cbn [cfg setSoundCache setRecentlyPlayed updateStatus];
      rewrite Hs, Hk; unfold searchFreesound;
      cbn [soundCache setSoundCache setRecentlyPlayed updateStatus];
      rewrite lookup_insert_eq; reflexivity.
Qed.

Lemma search_answer_is_cached_witness :
  savedSoundsEnabled (cfg Scenario.fresh_engine) = false /\
  searchAudio
    (fst (searchAudio Scenario.fresh_engine "dragon roar"
            (Scenario.found "https://cdn.freesound.org/previews/roar.mp3")))
    "dragon roar" (mkReply None Failed)
  = (fst (searchAudio Scenario.fresh_engine "dragon roar"
            (Scenario.found "https://cdn.freesound.org/previews/roar.mp3")),
     Some "https://cdn.freesound.org/previews/roar.mp3").
Proof.
  split; [reflexivity|].
  apply (search_answer_is_cached Scenario.fresh_engine "dragon roar"
           (Scenario.found "https://cdn.freesound.org/previews/roar.mp3"));
    reflexivity.
Defined.

Lemma existsb_eqb_elem url (l : list string) :
  existsb (String.eqb url) l = true <-> url ∈ l.
Proof.
  rewrite existsb_exists. split.
  - intros (x & Hin & Hx). apply String.eqb_eq in Hx. subst x.
    apply list_elem_of_In, Hin.
  - intros H. exists url. split; [apply list_elem_of_In, H|].
    apply String.eqb_refl.
Qed.

Lemma rememberPlayed_keeps url l :
  NoDup l -> length l <= 20 ->
  NoDup (rememberPlayed url l) /\
  length (rememberPlayed url l) <= 20 /\
  url ∈ rememberPlayed url l.
Proof.
  intros Hnd Hlen. unfold rememberPlayed.
  destruct (existsb (String.eqb url) l) eqn:Hex.
  - apply existsb_eqb_elem in Hex.
    destruct (Nat.ltb_spec 20 (length l)); [lia|].
    split; [exact Hnd|]. split; [exact Hlen|exact Hex].
  - assert (Hnin : url ∉ l).
    { intros Hin. apply existsb_eqb_elem in Hin. congruence. }
    assert (Hnd' : NoDup (l ++ [url])).
    { apply NoDup_app. split; [exact Hnd|]. split.
      - intros x Hx Hx'. apply list_elem_of_singleton in Hx'. subst x.
        contradiction.
      - apply NoDup_singleton. }
    destruct (Nat.ltb_spec 20 (length (l ++ [url]))) as [Hgt|Hle].
    + rewrite length_app in Hgt. simpl in Hgt.
      destruct l as [|x l]; [simpl in Hgt; lia|].
      change (drop 1 ((x :: l) ++ [url])) with (l ++ [url]).
      split; [|split].
      * change ((x :: l) ++ [url]) with (x :: (l ++ [url])) in Hnd'.
        apply NoDup_cons in Hnd'. apply Hnd'.
      * rewrite length_app. simpl in *. lia.
      * apply elem_of_app. right. apply list_elem_of_singleton. reflexivity.
    + split; [exact Hnd'|]. split; [exact Hle|].
      apply elem_of_app. right. apply list_elem_of_singleton. reflexivity.
Qed.

(** X15: the set of recent URLs stays a set of at most 20 entries across
    every search, and a URL that is remembered is in it afterwards. *)
Theorem recentlyPlayed_bounded e q reply url :
  NoDup (recentlyPlayed e) -> length (recentlyPlayed e) <= 20 ->
  NoDup (recentlyPlayed (fst (searchAudio e q reply))) /\
  length (recentlyPlayed (fst (searchAudio e q reply))) <= 20 /\
  url ∈ rememberPlayed url (recentlyPlayed e).
Proof.
  intros Hnd Hlen.
  destruct (rememberPlayed_keeps url _ Hnd Hlen) as (_ & _ & Hin).
  cut (NoDup (recentlyPlayed (fst (searchAudio e q reply))) /\
       length (recentlyPlayed (fst (searchAudio e q reply))) <= 20).
  { intros [H1 H2]. split; [exact H1|]. split; [exact H2|exact Hin]. }
  unfold searchAudio.
  destruct (if savedSoundsEnabled (cfg e) then truthy (local_hit reply)
            else None); [split; assumption|].
  destruct (hasKey (freesoundApiKey (cfg e))); [|split; assumption].
  unfold searchFreesound.
  destruct (soundCache e !! cacheKey (simplifySfxQuery q));
    [split; assumption|].
  destruct (remote reply) as [u| |]; [|split; assumption|split; assumption].
  destruct (isEmpty u); [split; assumption|].
  cbn [fst recentlyPlayed setRecentlyPlayed setSoundCache updateStatus].
  destruct (rememberPlayed_keeps u _ Hnd Hlen) as (H1 & H2 & _).
  split; assumption.
Qed.

Lemma recentlyPlayed_bounded_witness :
  length (recentlyPlayed
            (fst (searchAudio Scenario.fresh_engine "owl hoot"
                    (Scenario.found "https://cdn.freesound.org/previews/owl.mp3"))))
  <= 20.
Proof.
  apply (recentlyPlayed_bounded Scenario.fresh_engine "owl hoot"
           (Scenario.found "https://cdn.freesound.org/previews/owl.mp3")
           EmptyString).
  - apply NoDup_nil_2.
  - simpl. lia.
Defined.













End Searching.

(** ** A backend decision, applied *)
Section Decisions.
Import Js Engine Server Client.

Lemma playAudioSfx_cfg e url name vol tk :
  cfg (fst (playAudioSfx e url name vol tk)) = cfg e.
Proof.
  unfold playAudioSfx. destruct (isEmpty url); [reflexivity|].
  destruct (howl_ok tk); reflexivity.
Qed.

Lemma playAudioSfx_plays e url name vol tk :
  plays (fst (playAudioSfx e url name vol tk)) <= S (plays e).
Proof.
  unfold playAudioSfx. destruct (isEmpty url); [simpl; lia|].
  destruct (howl_ok tk); [|unfold plays; simpl; lia].
  unfold playSFXBuffer. cbn [fst].
  change (plays (setActiveSounds ?a ?x)) with (plays x).
  unfold plays at 1. cbn [audioLog setActiveSounds].
  fold (plays (emit (HowlPlay Sfx name url
                       (clamp01 (clamp01 vol * sfxLevel (cfg e))) false) e)).
  rewrite plays_emit. simpl. lia.
Qed.

Lemma playSoundEffectById_cfg e s tk :
  cfg (playSoundEffectById e s tk) = cfg e.
Proof.
  unfold playSoundEffectById.
  destruct (negb (sfxEnabled (cfg e))); [reflexivity|].
  destruct (maxSimultaneousSounds (cfg e) <=? size (activeSounds e))%nat;
    [reflexivity|].
  destruct (findSound e (sfx_id s)) as [snd|]; [|reflexivity].
  destruct (t_check tk <? default 0 (sfxCooldowns e !! getSfxBucket (sfx_id s)))%Z;
    [reflexivity|].
  match goal with |- context [playAudioSfx e ?u ?n ?v tk] =>
    pose proof (playAudioSfx_cfg e u n v tk) as Hp;
    destruct (playAudioSfx e u n v tk) as [e1 b] end.
  destruct b; exact Hp.
Qed.

Lemma playSoundEffectById_plays e s tk :
  plays (playSoundEffectById e s tk) <= S (plays e).
Proof.
  unfold playSoundEffectById.
  destruct (negb (sfxEnabled (cfg e))); [unfold plays; simpl; lia|].
  destruct (maxSimultaneousSounds (cfg e) <=? size (activeSounds e))%nat;
    [lia|].
  destruct (findSound e (sfx_id s)) as [snd|]; [|lia].
  destruct (t_check tk <? default 0 (sfxCooldowns e !! getSfxBucket (sfx_id s)))%Z;
    [lia|].
  match goal with |- context [playAudioSfx e ?u ?n ?v tk] =>
    pose proof (playAudioSfx_plays e u n v tk) as Hp;
    destruct (playAudioSfx e u n v tk) as [e1 b] end.
  destruct b; exact Hp.
Qed.

Lemma updateMusicById_effect e m ok :
  cfg (updateMusicById e m ok) = cfg e /\
  activeSounds (updateMusicById e m ok) = activeSounds e /\
  plays (updateMusicById e m ok) <= S (plays e).
Proof.
  unfold updateMusicById.
  destruct (negb (musicEnabled (cfg e)));
    [unfold plays; simpl; repeat split; lia|].
  destruct (findSound e (music_id m)) as [s|]; [|repeat split; lia].
  destruct (String.eqb (music_action m) "play_or_continue"
            && sameMusicPlaying e (music_id m)); [repeat split; lia|].
  unfold playAudioMusic.
  destruct (isEmpty (soundUrl e s)).
  { unfold scheduleNextStinger.
    destruct (negb (sfxEnabled (cfg e)) || negb (predictionEnabled (cfg e)));
      unfold plays; simpl; repeat split; lia. }
  destruct ok.
  - unfold playMusicElement, scheduleNextStinger.
    destruct (currentMusic e) as [old|];
      cbn [cfg setCurrentMusic emit];
      destruct (negb (sfxEnabled (cfg e)) || negb (predictionEnabled (cfg e)));
      (split; [reflexivity|split; [reflexivity|]]);
      unfold plays; cbn [audioLog setStingerTimer setCurrentMusic emit];
      rewrite ?filter_app, ?length_app; simpl; lia.
  - unfold scheduleNextStinger. cbn [cfg updateStatus].
    destruct (negb (sfxEnabled (cfg e)) || negb (predictionEnabled (cfg e)));
      unfold plays; simpl; repeat split; lia.
Qed.

Lemma applySfx_effect : forall l tks e,
  size (activeSounds e) <= maxSimultaneousSounds (cfg e) ->
  cfg (applySfx e l tks) = cfg e /\
  size (activeSounds (applySfx e l tks)) <= maxSimultaneousSounds (cfg e) /\
  plays (applySfx e l tks) <= plays e + length l.
Proof.
  induction l as [|s l IH]; intros tks e Hb.
  - simpl. split; [reflexivity|]. split; [exact Hb|lia].
  - destruct tks as [|tk tks].
    + simpl. split; [reflexivity|]. split; [exact Hb|lia].
    + cbn [applySfx].
      pose proof (playSoundEffectById_cfg e s tk) as Hc.
      pose proof (playSoundEffectById_bounded e s tk Hb) as Hb1.
      pose proof (playSoundEffectById_plays e s tk) as Hp.
      rewrite <- Hc in Hb1.
      destruct (IH tks _ Hb1) as (Hc2 & Hb2 & Hp2).
      rewrite Hc2, Hc. rewrite Hc in Hb2.
      split; [reflexivity|]. split; [exact Hb2|]. simpl. lia.
Qed.

(** X17: applying one backend decision keeps the number of active sound
    effects within [maxSimultaneousSounds], and starts at most one music
    track and one sound per listed effect. *)
Theorem decision_keeps_sfx_bound e d ok tks :
  size (activeSounds e) <= maxSimultaneousSounds (cfg e) ->
  size (activeSounds (applyDecision e d ok tks))
  <= maxSimultaneousSounds (cfg e) /\
  plays (applyDecision e d ok tks) <= plays e + 1 + length (sfx d).
Proof.
  intros Hb. unfold applyDecision.
  destruct (negb (predictionEnabled (cfg e))); [split; [exact Hb|lia]|].
  assert (Hm : cfg (applyMusic e d ok) = cfg e /\
               activeSounds (applyMusic e d ok) = activeSounds e /\
               plays (applyMusic e d ok) <= S (plays e)).
  { unfold applyMusic. destruct (music d) as [m|]; [|repeat split; lia].
    destruct (musicEnabled (cfg e) && negb (isEmpty (music_id m)));
      [apply updateMusicById_effect|repeat split; lia]. }
  destruct Hm as (Hc & Ha & Hp).
  change (activeSounds (updateStatus ?s ?x)) with (activeSounds x).
  change (plays (updateStatus ?s ?x)) with (plays x).
  destruct (sfxEnabled (cfg (applyMusic e d ok))).
  - assert (Hb1 : size (activeSounds (applyMusic e d ok))
                  <= maxSimultaneousSounds (cfg (applyMusic e d ok))).
    { rewrite Hc, Ha. exact Hb. }
    destruct (applySfx_effect (sfx d) tks _ Hb1) as (_ & Hb2 & Hp2).
    rewrite Hc in Hb2. split; [exact Hb2|lia].
  - rewrite Ha. split; [exact Hb|lia].
Qed.

Lemma decision_keeps_sfx_bound_witness :
  size (activeSounds
          (applyDecision Scenario.three_active
             (mkDecision "a storm"
                (Some (Scenario.decide_music "epic_theme"))
                [Scenario.sfx_now "ep_door_slam_01";
                 Scenario.sfx_now "ep_thunder_01"])
             true [Scenario.tick 30000 7; Scenario.tick 30001 8]))
  <= maxSimultaneousSounds (cfg Scenario.three_active).
Proof.
  apply (decision_keeps_sfx_bound Scenario.three_active).
  vm_compute. lia.
Defined.

End Decisions.

(** ** Live analysis *)
Section LiveAnalysis.
Import Js Engine Server Client Analysis.

Lemma playAudioSfx_version e url name vol tk :
  analysisVersion (fst (playAudioSfx e url name vol tk)) = analysisVersion e.
Proof.
  unfold playAudioSfx. destruct (isEmpty url); [reflexivity|].
  destruct (howl_ok tk); reflexivity.
Qed.

Lemma searchAudio_version e q reply :
  analysisVersion (fst (searchAudio e q reply)) = analysisVersion e.
Proof.
  pose proof (searchAudio_beyondCaches e q reply) as H.
  unfold beyondCaches in H. congruence.
Qed.

Lemma scheduleNextStinger_version e :
  analysisVersion (scheduleNextStinger e) = analysisVersion e.
Proof.
  unfold scheduleNextStinger.
  destruct (negb (sfxEnabled (cfg e)) || negb (predictionEnabled (cfg e)));
    reflexivity.
Qed.

Lemma updateMusicById_version e m ok :
  analysisVersion (updateMusicById e m ok) = analysisVersion e.
Proof.
  unfold updateMusicById.
  destruct (negb (musicEnabled (cfg e))); [reflexivity|].
  destruct (findSound e (music_id m)) as [s|]; [|reflexivity].
  destruct (String.eqb (music_action m) "play_or_continue"
            && sameMusicPlaying e (music_id m)); [reflexivity|].
  unfold playAudioMusic. destruct (isEmpty (soundUrl e s));
    [apply scheduleNextStinger_version|].
  destruct ok; [|rewrite scheduleNextStinger_version; reflexivity].
  unfold playMusicElement. rewrite scheduleNextStinger_version.
  destruct (currentMusic e); reflexivity.
Qed.

Lemma playSoundEffectById_version e s tk :
  analysisVersion (playSoundEffectById e s tk) = analysisVersion e.
Proof.
  unfold playSoundEffectById.
  destruct (negb (sfxEnabled (cfg e))); [reflexivity|].
  destruct (maxSimultaneousSounds (cfg e) <=? size (activeSounds e))%nat;
    [reflexivity|].
  destruct (findSound e (sfx_id s)) as [snd|]; [|reflexivity].
  destruct (t_check tk <? default 0 (sfxCooldowns e !! getSfxBucket (sfx_id s)))%Z;
    [reflexivity|].
  match goal with |- context [playAudioSfx e ?u ?n ?v tk] =>
    pose proof (playAudioSfx_version e u n v tk) as Hp;
    destruct (playAudioSfx e u n v tk) as [e1 b] end.
  destruct b; exact Hp.
Qed.

Lemma playSoundEffect_resume_version e p reply tk :
  analysisVersion (playSoundEffect_resume e p reply tk) = analysisVersion e.
Proof.
  unfold playSoundEffect_resume.
  pose proof (searchAudio_version e (req_query (pend_request p)) reply) as Hs.
  destruct (searchAudio e (req_query (pend_request p)) reply) as [e1 found].
  cbn [fst] in Hs. destruct (truthy found) as [url|]; [|exact Hs].
  match goal with |- context [playAudioSfx e1 ?u ?n ?v tk] =>
    pose proof (playAudioSfx_version e1 u n v tk) as Hp;
    destruct (playAudioSfx e1 u n v tk) as [e2 b] end.
  cbn [fst] in Hp. destruct b; cbn [analysisVersion setSfxCooldowns];
    congruence.
Qed.

Lemma stingerFire_version e pick reply tk :
  analysisVersion (stingerFire e pick reply tk) = analysisVersion e.
Proof.
  unfold stingerFire. set (choice := nth _ _ _).
  pose proof (searchAudio_version (setStingerTimer false e) choice reply)
    as Hs.
  destruct (searchAudio (setStingerTimer false e) choice reply)
    as [e1 found].
  cbn [fst] in Hs. rewrite scheduleNextStinger_version.
  destruct (truthy found) as [url|]; [|exact Hs].
  rewrite playAudioSfx_version. exact Hs.
Qed.

Lemma opStep_version e o :
  analysisVersion (opStep e o)
  = if isSelectMode o then S (analysisVersion e) else analysisVersion e.
Proof.
  destruct o; cbn [opStep isSelectMode].
  - reflexivity.
  - apply updateMusicById_version.
  - apply playSoundEffectById_version.
  - apply playSoundEffect_resume_version.
  - apply stingerFire_version.
  - reflexivity.
Qed.

Lemma runOps_version : forall ops e,
  analysisVersion e <= analysisVersion (runOps ops e) /\
  (existsb isSelectMode ops = true ->
   analysisVersion e < analysisVersion (runOps ops e)).
Proof.
  induction ops as [|o ops IH]; intros e.
  - simpl. split; [lia|discriminate].
  - cbn [runOps fold_left existsb]. fold (runOps ops (opStep e o)).
    destruct (IH (opStep e o)) as [Hle Hlt].
    rewrite opStep_version in Hle, Hlt.
    destruct (isSelectMode o); simpl.
    + split; [lia|intros _; lia].
    + split; [lia|exact Hlt].
Qed.

(** X18: the answer to an analysis that was requested before a mode
    change is discarded: whatever else the director did in between, a
    decision or [null] leaves the engine as it is, and a rejection only
    writes the status line. *)
Theorem stale_analysis_discarded e l custom e0 v ops r ok tks :
  analyzeContext_begin e l custom = (e0, Some v) ->
  existsb isSelectMode ops = true ->
  playback (analyzeContext_resume (runOps ops e0) v r ok tks)
  = playback (runOps ops e0) /\
  (r <> Rejected ->
   analyzeContext_resume (runOps ops e0) v r ok tks = runOps ops e0).
Proof.
  intros Hb Hops. unfold analyzeContext_begin in Hb.
  destruct (isEmpty _); [discriminate|].
  injection Hb as He Hv. subst e0 v.
  destruct (runOps_version ops (updateStatus "Analyzing context..." e))
    as [_ Hlt].
  specialize (Hlt Hops). cbn [analysisVersion updateStatus] in Hlt.
  unfold analyzeContext_resume. destruct r as [d| |].
  - destruct (Nat.eqb_spec
                (analysisVersion
                   (runOps ops (updateStatus "Analyzing context..." e)))
                (analysisVersion e)) as [E|_]; [lia|].
    simpl. split; [reflexivity|intros _; reflexivity].
  - split; [reflexivity|intros _; reflexivity].
  - split; [reflexivity|congruence].
Qed.

Lemma stale_analysis_discarded_witness :
  playback
    (analyzeContext_resume
       (runOps [DoSelectMode "horror"]
          (updateStatus "Analyzing context..." Scenario.fresh_engine))
       0
       (Answer (mkDecision "a storm"
                  (Some (Scenario.decide_music "epic_theme")) []))
       true [])
  = playback
      (runOps [DoSelectMode "horror"]
         (updateStatus "Analyzing context..." Scenario.fresh_engine)).
Proof.
  apply (stale_analysis_discarded Scenario.fresh_engine
           (mkListener [] EmptyString 0 7000 false)
           (Some "the dragon roars") _ 0 [DoSelectMode "horror"]);
    reflexivity.
Defined.













End LiveAnalysis.

(** ** The rate limiter of the server *)
Section Limiter.
Import RateLimit.

Lemma checkRateLimit_open m ip r now :
  m !! ip = Some r -> (now <= resetTime r)%Z ->
  checkRateLimit m ip now
  = if (RATE_LIMIT_MAX <=? count r)%nat then (m, false)
    else (<[ip := mkRecord (S (count r)) (resetTime r)]> m, true).
Proof.
  intros Hm Hnow. unfold checkRateLimit. rewrite Hm. cbn [default from_option id].
  destruct (Z.ltb_spec (resetTime r) now); [lia|reflexivity].
Qed.

Lemma serve_cons m ip now rest :
  serve m ip (now :: rest)
  = (fst (serve (fst (checkRateLimit m ip now)) ip rest),
     snd (checkRateLimit m ip now)
     :: snd (serve (fst (checkRateLimit m ip now)) ip rest)).
Proof.
  cbn [serve]. destruct (checkRateLimit m ip now) as [m1 ok].
  cbn [fst snd]. destruct (serve m1 ip rest); reflexivity.
Qed.

(** X21: while the window of an address is open, exactly the first
    [RATE_LIMIT_MAX - count] of its requests are let through and every
    later one is refused. *)
Theorem quota_within_window times : forall m ip r,
  m !! ip = Some r ->
  Forall (fun now => (now <= resetTime r)%Z) times ->
  snd (serve m ip times)
  = replicate (Nat.min (length times) (RATE_LIMIT_MAX - count r)) true
    ++ replicate (length times - (RATE_LIMIT_MAX - count r)) false.
Proof.
  induction times as [|now rest IH]; intros m ip r Hm Hall; [reflexivity|].
  apply Forall_cons in Hall. destruct Hall as [Hnow Hrest].
  rewrite serve_cons, (checkRateLimit_open m ip r now Hm Hnow).
  unfold RATE_LIMIT_MAX in *.
  destruct (Nat.leb_spec 10 (count r)) as [Hfull|Hroom]; cbn [fst snd].
  - rewrite (IH m ip r Hm Hrest).
    replace (10 - count r) with 0 by lia.
    rewrite !Nat.min_0_r. cbn [replicate app length].
    rewrite !Nat.sub_0_r. reflexivity.
  - rewrite (IH _ ip (mkRecord (S (count r)) (resetTime r))
               (lookup_insert_eq _ _ _) Hrest).
    cbn [count resetTime length].
    replace (10 - count r) with (S (10 - S (count r))) by lia.
    rewrite <- Nat.succ_min_distr. reflexivity.
Qed.

Lemma quota_within_window_witness :
  snd (serve {[ "203.0.113.7" := mkRecord 8 60000 ]} "203.0.113.7"
         [100; 200; 300; 400]%Z)
  = replicate (Nat.min 4 (RATE_LIMIT_MAX - 8)) true
    ++ replicate (4 - (RATE_LIMIT_MAX - 8)) false.
Proof.
  apply (quota_within_window [100; 200; 300; 400]%Z
           {[ "203.0.113.7" := mkRecord 8 60000 ]} "203.0.113.7"
           (mkRecord 8 60000)).
  - apply lookup_singleton_eq.
  - repeat constructor; cbn [resetTime]; lia.
Defined.

Lemma serve_spaced gap ip : forall times m r last,
  (6000 < gap)%Z ->
  m !! ip = Some r ->
  1 <= count r ->
  (resetTime r - RATE_LIMIT_WINDOW + gap * (Z.of_nat (count r) - 1)
   <= last)%Z ->
  Analysis.spaced gap (last :: times) = true ->
  snd (serve m ip times) = replicate (length times) true.
Proof.
  induction times as [|now rest IH]; intros m r last Hgap Hm Hc Hinv Hsp;
    [reflexivity|].
  cbn [Analysis.spaced] in Hsp. apply andb_true_iff in Hsp.
  destruct Hsp as [Hstep Hsp]. apply Z.leb_le in Hstep.
  rewrite serve_cons. unfold RATE_LIMIT_WINDOW in *.
  destruct (Z.ltb_spec (resetTime r) now) as [Hexp|Hopen].
  - assert (E : checkRateLimit m ip now
                = (<[ip := mkRecord 1 (now + 60000)]> m, true)).
    { unfold checkRateLimit, RATE_LIMIT_WINDOW. rewrite Hm. cbn [default from_option id].
      destruct (Z.ltb_spec (resetTime r) now); [reflexivity|lia]. }
    rewrite E. cbn [fst snd length replicate]. f_equal.
    apply (IH _ (mkRecord 1 (now + 60000)) now Hgap
             (lookup_insert_eq _ _ _)); cbn [count resetTime].
    + lia.
    + lia.
    + exact Hsp.
  - rewrite (checkRateLimit_open m ip r now Hm Hopen).
    unfold RATE_LIMIT_MAX.
    destruct (Nat.leb_spec 10 (count r)) as [Hfull|Hroom]; [exfalso; nia|].
    cbn [fst snd length replicate]. f_equal.
    apply (IH _ (mkRecord (S (count r)) (resetTime r)) now Hgap
             (lookup_insert_eq _ _ _)); cbn [count resetTime].
    + lia.
    + nia.
    + exact Hsp.
Qed.

(** X22: an address that is new to the limiter and whose requests arrive
    more than 6 s apart (the live analysis keeps them 7 s apart) is never
    refused. *)
Theorem spaced_requests_pass m ip gap t0 times :
  m !! ip = None ->
  (6000 < gap)%Z ->
  Analysis.spaced gap (t0 :: times) = true ->
  snd (serve m ip (t0 :: times)) = replicate (S (length times)) true.
Proof.
  intros Hm Hgap Hsp. rewrite serve_cons.
  assert (E : checkRateLimit m ip t0
              = (<[ip := mkRecord 1 (t0 + RATE_LIMIT_WINDOW)]> m, true)).
  { unfold checkRateLimit, RATE_LIMIT_WINDOW. rewrite Hm. cbn [default from_option id resetTime count].
    destruct (Z.ltb_spec (t0 + 60000) t0); [lia|reflexivity]. }
  rewrite E. cbn [fst snd replicate]. f_equal.
  apply (serve_spaced gap ip times _
           (mkRecord 1 (t0 + RATE_LIMIT_WINDOW)) t0 Hgap
           (lookup_insert_eq _ _ _)); cbn [count resetTime].
  - lia.
  - unfold RATE_LIMIT_WINDOW. lia.
  - exact Hsp.
Qed.

Lemma spaced_requests_pass_witness :
  snd (serve ∅ "203.0.113.7"
         [0; 7000; 14000; 21000; 28000; 35000; 42000; 49000; 56000;
          63000; 70000; 77000]%Z)
  = replicate 12 true.
Proof.
  apply (spaced_requests_pass ∅ "203.0.113.7" 7000 0
           [7000; 14000; 21000; 28000; 35000; 42000; 49000; 56000;
            63000; 70000; 77000]%Z).
  - apply lookup_empty.
  - lia.
  - reflexivity.
Defined.

(** X23: removing the expired records is invisible: after a clean-up at
    an earlier reading of the clock, a request gets the same answer and
    leaves the same record for its address as without the clean-up. *)
Theorem removeExpired_invisible m cleaned ip now :
  (cleaned <= now)%Z ->
  snd (checkRateLimit (removeExpired m cleaned) ip now)
  = snd (checkRateLimit m ip now) /\
  fst (checkRateLimit (removeExpired m cleaned) ip now) !! ip
  = fst (checkRateLimit m ip now) !! ip.
Proof.
  intros Hle.
  destruct (removeExpired m cleaned !! ip) as [r|] eqn:Hf.
  - pose proof Hf as Hf0. apply map_lookup_filter_Some in Hf.
    destruct Hf as [Hm _].
    unfold checkRateLimit. rewrite Hf0, Hm. cbn [default from_option id].
    destruct (resetTime r <? now)%Z;
      [|destruct (RATE_LIMIT_MAX <=? count r)%nat]; cbn [fst snd].
    + rewrite !lookup_insert_eq. split; reflexivity.
    + rewrite Hf0, Hm. split; reflexivity.
    + rewrite !lookup_insert_eq. split; reflexivity.
  - pose proof Hf as Hf0. apply map_lookup_filter_None in Hf.
    unfold checkRateLimit, RATE_LIMIT_WINDOW, RATE_LIMIT_MAX.
    rewrite Hf0. cbn [default from_option id resetTime count].
    destruct (Z.ltb_spec (now + 60000) now); [lia|]. cbn [Nat.leb fst snd].
    destruct (m !! ip) as [r|] eqn:Hm; cbn [default from_option id].
    + destruct Hf as [Hf|Hf]; [discriminate|].
      specialize (Hf r eq_refl). cbn [snd] in Hf.
      destruct (Z.ltb_spec (resetTime r) cleaned) as [Hexp|];
        [|contradiction Hf; reflexivity].
      destruct (Z.ltb_spec (resetTime r) now); [|lia]. cbn [fst snd].
      rewrite !lookup_insert_eq. split; reflexivity.
    + cbn [resetTime count].
      destruct (Z.ltb_spec (now + 60000) now); [lia|]. cbn [Nat.leb fst snd].
      rewrite !lookup_insert_eq. split; reflexivity.
Qed.

Lemma removeExpired_invisible_witness :
  snd (checkRateLimit
         (removeExpired {[ "203.0.113.7" := mkRecord 10 60000 ]} 300000)
         "203.0.113.7" 300500)
  = snd (checkRateLimit {[ "203.0.113.7" := mkRecord 10 60000 ]}
           "203.0.113.7" 300500).
Proof.
  apply (removeExpired_invisible {[ "203.0.113.7" := mkRecord 10 60000 ]}
           300000 "203.0.113.7" 300500).
  lia.
Defined.

End Limiter.

(** ** Validation, preloading and the backend client *)
Section Validation.
Import Js Engine Server.

(** X24: the validation of [/analyze] rejects nothing that is valid: a
    decision whose sound effects are all in the catalog, and whose music,
    if any, is in the catalog or has no id, is sent on unchanged. *)
Theorem valid_decision_unchanged catalog d :
  match music d with
  | Some m => isEmpty (music_id m) = true \/ known catalog (music_id m) = true
  | None => True
  end ->
  Forall (fun s => known catalog (sfx_id s) = true) (sfx d) ->
  validateDecision catalog d = d.
Proof.
  intros Hm Hs. destruct d as [sc mu sf]. unfold validateDecision.
  cbn [scene music sfx] in *. f_equal.
  - destruct mu as [m|]; [|reflexivity].
    destruct Hm as [Hm|Hm]; rewrite Hm; simpl;
      [reflexivity|rewrite andb_false_r; reflexivity].
  - induction Hs as [|s l Hk _ IH]; [reflexivity|].
    rewrite filter_cons, decide_True by exact Hk. rewrite IH. reflexivity.
Qed.

Lemma valid_decision_unchanged_witness :
  validateDecision Scenario.catalog
    (mkDecision "a storm" (Some (Scenario.decide_music "epic_theme"))
       [Scenario.sfx_now "ep_thunder_01"; Scenario.sfx_now "ep_thunder_01"])
  = mkDecision "a storm" (Some (Scenario.decide_music "epic_theme"))
      [Scenario.sfx_now "ep_thunder_01"; Scenario.sfx_now "ep_thunder_01"].
Proof.
  apply (valid_decision_unchanged Scenario.catalog).
  - right. reflexivity.
  - repeat constructor.
Defined.

End Validation.

Section Preloading.
Import Js Engine Preload.

Lemma settle_invariant {T} (tasks : list T) limit p k :
  started p ++ queue p = tasks ->
  length (runners p) <= limit ->
  (queue p <> [] -> runners p <> [] /\ Forall is_Some (runners p)) ->
  started (settle p k) ++ queue (settle p k) = tasks /\
  length (runners (settle p k)) <= limit /\
  (queue (settle p k) <> [] ->
   runners (settle p k) <> [] /\ Forall is_Some (runners (settle p k))).
Proof.
  intros Hs Hl Hq. unfold settle.
  destruct (runners p !! k) as [[t|]|] eqn:Hk;
    [|split; [exact Hs|split; [exact Hl|exact Hq]]
     |split; [exact Hs|split; [exact Hl|exact Hq]]].
  destruct (queue p) as [|fn rest] eqn:Hqu; cbn [started queue runners].
  - split; [rewrite app_nil_r in *; exact Hs|].
    split; [rewrite length_insert; exact Hl|]. intros H. contradiction.
  - split; [rewrite <- app_assoc; exact Hs|].
    split; [rewrite length_insert; exact Hl|]. intros _.
    destruct Hq as [Hne Hall]; [discriminate|]. split.
    + intros E. apply (f_equal length) in E.
      rewrite length_insert in E. destruct (runners p); [congruence|].
      simpl in E. lia.
    + apply Forall_insert; [exact Hall|]. exists fn. reflexivity.
Qed.

Lemma pool_invariant {T} (tasks : list T) limit : forall ks p,
  started p ++ queue p = tasks ->
  length (runners p) <= limit ->
  (queue p <> [] -> runners p <> [] /\ Forall is_Some (runners p)) ->
  started (settleAll p ks) ++ queue (settleAll p ks) = tasks /\
  length (runners (settleAll p ks)) <= limit /\
  (queue (settleAll p ks) <> [] ->
   runners (settleAll p ks) <> [] /\
   Forall is_Some (runners (settleAll p ks))).
Proof.
  induction ks as [|k ks IH]; intros p Hs Hl Hq.
  - split; [exact Hs|split; [exact Hl|exact Hq]].
  - cbn [settleAll fold_left]. fold (settleAll (settle p k) ks).
    destruct (settle_invariant tasks limit p k Hs Hl Hq) as (H1 & H2 & H3).
    apply IH; assumption.
Qed.

Lemma pool_start_invariant {T} (tasks : list T) limit :
  0 < limit ->
  started (runWithConcurrency tasks limit)
  ++ queue (runWithConcurrency tasks limit) = tasks /\
  length (runners (runWithConcurrency tasks limit)) <= limit /\
  (queue (runWithConcurrency tasks limit) <> [] ->
   runners (runWithConcurrency tasks limit) <> [] /\
   Forall is_Some (runners (runWithConcurrency tasks limit))).
Proof.
  intros Hpos. unfold runWithConcurrency. cbn [started queue runners].
  split; [apply take_drop|].
  split; [rewrite length_map, length_take; lia|].
  intros Hq. split.
  - intros E. apply (f_equal length) in E.
    rewrite length_map, length_take in E. simpl in E.
    destruct tasks as [|t tasks]; [rewrite drop_nil in Hq; congruence|].
    simpl in E. lia.
  - apply Forall_forall. intros r Hr.
    apply list_elem_of_fmap in Hr. destruct Hr as (t & -> & _).
    exists t. reflexivity.
Qed.

Lemma pool_facts {T} (tasks : list T) limit ks :
  0 < limit ->
  started (settleAll (runWithConcurrency tasks limit) ks)
  ++ queue (settleAll (runWithConcurrency tasks limit) ks) = tasks /\
  inFlight (settleAll (runWithConcurrency tasks limit) ks) <= limit /\
  (allReturned (settleAll (runWithConcurrency tasks limit) ks) = true ->
   started (settleAll (runWithConcurrency tasks limit) ks) = tasks).
Proof.
  intros Hpos.
  destruct (pool_start_invariant tasks limit Hpos) as (H1 & H2 & H3).
  destruct (pool_invariant tasks limit ks _ H1 H2 H3) as (Hs & Hl & Hq).
  set (p := settleAll (runWithConcurrency tasks limit) ks) in *.
  split; [exact Hs|]. split.
  - unfold inFlight. pose proof (length_filter (fun r => is_Some r) (runners p)).
    lia.
  - intros Hall. destruct (queue p) as [|fn rest] eqn:Hqu.
    + rewrite app_nil_r in Hs. exact Hs.
    + exfalso. destruct Hq as [Hne Hsome]; [discriminate|].
      unfold allReturned in Hall. destruct (runners p) as [|r rs];
        [congruence|].
      apply Forall_cons in Hsome. destruct Hsome as [[t Ht] _]. subst r.
      simpl in Hall. discriminate.
Qed.

(** X25: [runWithConcurrency] starts the tasks in the order given, each
    at most once, never has more than [limit] of them in flight, and when
    all its runners have returned every task has been started. *)
Theorem pool_runs_every_task_once {T} (tasks : list T) limit ks :
  0 < limit ->
  started (settleAll (runWithConcurrency tasks limit) ks)
  ++ queue (settleAll (runWithConcurrency tasks limit) ks) = tasks /\
  inFlight (settleAll (runWithConcurrency tasks limit) ks) <= limit /\
  (allReturned (settleAll (runWithConcurrency tasks limit) ks) = true ->
   started (settleAll (runWithConcurrency tasks limit) ks) = tasks).
Proof. apply pool_facts. Qed.

Lemma pool_runs_every_task_once_witness :
  inFlight (settleAll (runWithConcurrency ["a"; "b"; "c"; "d"; "e"] 2)
              [0; 1; 1; 0; 1])
  <= 2.
Proof.
  apply (pool_runs_every_task_once ["a"; "b"; "c"; "d"; "e"] 2
           [0; 1; 1; 0; 1]).
  lia.
Defined.

Lemma getPreloadConcurrency_range effectiveType lowLatencyMode :
  2 <= getPreloadConcurrency effectiveType lowLatencyMode <= 7.
Proof.
  unfold getPreloadConcurrency.
  destruct (includes _ "2g"); [destruct lowLatencyMode; simpl; lia|].
  destruct (includes _ "3g"); destruct lowLatencyMode; simpl; lia.
Qed.

(** X26: the pool that preloads the sounds of a mode has between 2 and 7
    workers whatever the connection reports, so at most 7 searches or
    downloads run at a time and no task is left unstarted when the pool
    returns. *)
Theorem preload_pool_bounds {T} (tasks : list T) effectiveType
    lowLatencyMode ks :
  inFlight
    (settleAll
       (runWithConcurrency tasks
          (getPreloadConcurrency effectiveType lowLatencyMode)) ks)
  <= 7 /\
  (allReturned
     (settleAll
        (runWithConcurrency tasks
           (getPreloadConcurrency effectiveType lowLatencyMode)) ks)
   = true ->
   started
     (settleAll
        (runWithConcurrency tasks
           (getPreloadConcurrency effectiveType lowLatencyMode)) ks)
   = tasks).
Proof.
  pose proof (getPreloadConcurrency_range effectiveType lowLatencyMode)
    as [Hlo Hhi].
  destruct (pool_facts tasks
              (getPreloadConcurrency effectiveType lowLatencyMode) ks)
    as (_ & Hin & Hall); [lia|].
  split; [lia|exact Hall].
Qed.

(** X27: for every mode the queries that [preloadSfxForCurrentMode]
    prepares are exactly the 20 entries of the mode's own table, without
    repetition: the cap of 20 leaves no room for an entry that only the
    generic set has. *)
Theorem preload_targets_are_the_mode_table mode :
  preloadTarget mode = modePreloadSet mode /\
  length (preloadTarget mode) = 20 /\
  NoDup (preloadTarget mode).
Proof.
  unfold preloadTarget, modePreloadSet.
  repeat match goal with
         | |- context [String.eqb mode ?m] => destruct (String.eqb mode m)
         end;
    (split; [vm_compute; reflexivity|]);
    (split; [vm_compute; reflexivity|]);
    refine (bool_decide_eq_true_1 _ _); vm_compute; reflexivity.
Qed.

End Preloading.

Section BackendClient.
Import Js Server Api.

Lemma analyzeTranscript_cooldown c transcript now reply later :
  fst (fst (analyzeTranscript c transcript now reply later)) = c \/
  fst (fst (analyzeTranscript c transcript now reply later))
  = (later + 60000)%Z.
Proof.
  unfold analyzeTranscript.
  destruct (isEmpty transcript || isEmpty (trim transcript));
    [left; reflexivity|].
  destruct (now <? c)%Z; [left; reflexivity|].
  destruct reply as [code body|]; [|left; reflexivity].
  destruct ((200 <=? code)%nat && (code <=? 299)%nat).
  - destruct body; left; reflexivity.
  - destruct (code =? 429)%nat; [right|left]; reflexivity.
Qed.

Lemma afterCalls_ge bound : forall calls c,
  (bound + 60000 <= c)%Z ->
  Forall (fun call : Call => (bound <= snd call)%Z) calls ->
  (bound + 60000 <= afterCalls c calls)%Z.
Proof.
  induction calls as [|call calls IH]; intros c Hc Hall; [exact Hc|].
  apply Forall_cons in Hall. destruct Hall as [Hcall Hall].
  cbn [afterCalls fold_left]. fold (afterCalls (fst (fst (callStep c call))) calls).
  apply IH; [|exact Hall].
  destruct call as [[[transcript now] reply] later]. cbn [callStep snd] in *.
  destruct (analyzeTranscript_cooldown c transcript now reply later) as [E|E];
    rewrite E; lia.
Qed.

(** X28: after the backend has answered 429, it is not asked again
    before 60 s have passed on the client's clock, whatever calls are made
    in between: those calls go to the client-side fallback (or fail on an
    empty transcript). *)
Theorem no_backend_request_during_backoff c transcript now body later
    calls transcript' now' reply' later' :
  snd (analyzeTranscript c transcript now (Status 429 body) later) = true ->
  Forall (fun call : Call => (later <= snd call)%Z) calls ->
  (now' < later + 60000)%Z ->
  snd (analyzeTranscript
         (afterCalls
            (fst (fst (analyzeTranscript c transcript now
                         (Status 429 body) later))) calls)
         transcript' now' reply' later')
  = false.
Proof.
  intros Hasked Hcalls Hnow.
  assert (Hc : fst (fst (analyzeTranscript c transcript now
                           (Status 429 body) later))
               = (later + 60000)%Z).
  { revert Hasked. unfold analyzeTranscript.
    destruct (isEmpty transcript || isEmpty (trim transcript));
      [discriminate|].
    destruct (now <? c)%Z; [discriminate|]. reflexivity. }
  rewrite Hc.
  pose proof (afterCalls_ge later calls (later + 60000)%Z
                (Z.le_refl _) Hcalls) as Hge.
  unfold analyzeTranscript at 1.
  destruct (isEmpty transcript' || isEmpty (trim transcript'));
    [reflexivity|].
  destruct (Z.ltb_spec now' (afterCalls (later + 60000) calls));
    [reflexivity|lia].
Qed.

Lemma no_backend_request_during_backoff_witness :
  snd (analyzeTranscript
         (afterCalls
            (fst (fst (analyzeTranscript 0 "the dragon roars" 1000
                         (Status 429 None) 1200)))
            [("and the knight falls", 9000%Z, Unreachable, 9100%Z)])
         "into the river" 61000 (Status 200 None) 61100)
  = false.
Proof.
  apply (no_backend_request_during_backoff 0 "the dragon roars" 1000 None
           1200 [("and the knight falls", 9000%Z, Unreachable, 9100%Z)]).
  - reflexivity.
  - repeat constructor. cbn [snd]. lia.
  - lia.
Defined.

End BackendClient.
